(** * Authentication core of corporate-code-rules

    A shallow embedding of [examples/good/auth-example.py]: the
    [AuthService] class (login, token issuance, token verification) and the
    [RateLimiter] class with its decorator and the decorated
    [login_endpoint].

    Python objects and effects are modelled as follows.
    - [datetime] is an integer count of microseconds since the epoch, the
      resolution of Python's [datetime]; [timedelta] is a count of
      microseconds.  The range limits of both types are not modelled.
    - A coroutine is a function in the monad [M]: it takes the [world],
      returns a value or raises an exception, and leaves a new [world].
    - The collaborators the module imports (clock, [secrets], the user
      store, [bcrypt], [settings]) and the built-ins whose code is elsewhere
      (the signature of the [jwt] library, [int] on strings) are the fields of
      the class [Env].
    - [import jwt] binds the name [jwt] to the PyJWT package. *)

From stdpp Require Import gmap strings list fin_maps pretty sorting.
From Stdlib Require Import ZArith Lia.

Local Open Scope Z_scope.

(** ** Time *)

Definition datetime := Z.
Definition timedelta := Z.

Definition timedelta_seconds (s : Z) : timedelta := s * 1000000.
Definition timedelta_minutes (m : Z) : timedelta := timedelta_seconds (m * 60).
Definition timedelta_days (d : Z) : timedelta := timedelta_seconds (d * 86400).

(** ** Values, exceptions, results *)

(** The values stored in a token payload. *)
Inductive value :=
| VStr (s : string)
| VInt (n : Z)
| VDatetime (t : datetime).

Global Instance value_eq_dec : EqDecision value.
Proof. solve_decision. Defined.

(** The exceptions the module raises or receives, all of them below
    [Exception].  [AuthenticationError], [AuthorizationError] and
    [UserNotFoundException] carry the message, the [error_code] and the
    [trace_id] they are built with; they are unrelated classes.
    [ExpiredSignatureError] is PyJWT's; [InvalidTokenError] stands for the
    other subclasses of PyJWT's class of that name ([DecodeError],
    [InvalidSignatureError], [InvalidAlgorithmError],
    [ImmatureSignatureError], ...), with the text they are raised with.
    [OtherError] stands for any other exception below [Exception], with the
    text [str] gives for it.  Exceptions that are not below [Exception]
    (cancellation, keyboard interrupt) are not modelled. *)
Inductive exn :=
| AuthenticationError (message error_code trace_id : string)
| AuthorizationError (message error_code trace_id : string)
| UserNotFoundException (message error_code trace_id : string)
| HTTPException (status_code : Z) (detail : string)
| ExpiredSignatureError
| InvalidTokenError (reason : string)
| AttributeError (message : string)
| KeyError (key : string)
| NameError (name : string)
| OtherError (description : string).

Global Instance exn_eq_dec : EqDecision exn.
Proof. solve_decision. Defined.

Inductive result (A : Type) :=
| Ok (a : A)
| Raise (e : exn).
Arguments Ok {A} a.
Arguments Raise {A} e.

Global Instance result_ret : MRet result := λ A a, Ok a.
Global Instance result_bind : MBind result := λ A B f r,
  match r with
  | Ok a => f a
  | Raise e => Raise e
  end.

(** [str(e)].  The classes of [app.exceptions] are not in the source: their
    text is taken to be the message they are built with.  [HTTPException]
    prints its status code and detail, [KeyError] the [repr] of its key (here
    for keys without quotes, backslashes or control characters), [NameError]
    the interpreter's sentence. *)
Definition exn_str (e : exn) : string :=
  match e with
  | AuthenticationError m _ _ | AuthorizationError m _ _
  | UserNotFoundException m _ _ => m
  | HTTPException c d => pretty c +:+ ": " +:+ d
  | ExpiredSignatureError => "Signature has expired"
  | InvalidTokenError r => r
  | AttributeError m => m
  | KeyError k => "'" +:+ k +:+ "'"
  | NameError n => "name '" +:+ n +:+ "' is not defined"
  | OtherError d => d
  end.

(** ** The world *)

Inductive log_level := WARNING | INFO | ERROR.

(** What a coroutine does that its caller can observe afterwards: the calls
    into collaborators, the records handed to the logger, and the entry into
    the rate limiter. *)
Inductive event :=
| CheckRateLimit (key : string)
| GetByEmail (email : string)
| Checkpw
| JwtEncode
| JwtDecode
| Log (level : log_level) (message : string) (extra : list (string * string)).

Record world := World {
  clock_reads : nat;                        (* calls of datetime.utcnow() so far *)
  rng_draws : nat;                          (* calls of secrets.token_urlsafe so far *)
  attempts : gmap string (list datetime);   (* rate_limiter.attempts *)
  trace : list event                        (* oldest event first *)
}.

(** The world at import time: [RateLimiter.__init__] has run. *)
Definition world0 : world := World 0 0 ∅ [].

Definition M (A : Type) : Type := world → result A * world.

Global Instance M_ret : MRet M := λ A a w, (Ok a, w).
Global Instance M_bind : MBind M := λ A B f m w,
  match m w with
  | (Ok a, w') => f a w'
  | (Raise e, w') => (Raise e, w')
  end.

Definition raise {A} (e : exn) : M A := λ w, (Raise e, w).

Definition lift {A} (r : result A) : M A := λ w, (r, w).

(** [try: m except ...: h] where [h e = None] when no clause matches [e]. *)
Definition try_except {A} (m : M A) (h : exn → option (M A)) : M A := λ w,
  match m w with
  | (Ok a, w') => (Ok a, w')
  | (Raise e, w') =>
      match h e with
      | Some k => k w'
      | None => (Raise e, w')
      end
  end.

Definition emit (e : event) : M unit := λ w,
  (Ok (), World (clock_reads w) (rng_draws w) (attempts w) (trace w ++ [e])).

Definition set_attempts (a : gmap string (list datetime)) : M unit := λ w,
  (Ok (), World (clock_reads w) (rng_draws w) a (trace w)).

Definition get_attempts : M (gmap string (list datetime)) := λ w, (Ok (attempts w), w).

(** ** Collaborators *)

Module User.
Record t := {
  id : string;
  email : string;
  name : string;
  password_hash : string
}.
End User.

Class Env := {
  (** the reading the [n]-th call of [datetime.utcnow()] returns *)
  utcnow_at : nat → datetime;
  (** the string the [n]-th call of [secrets.token_urlsafe(32)] returns *)
  token_urlsafe_at : nat → string;
  (** [User.get_by_email] *)
  User_get_by_email : string → result (option User.t);
  (** [bcrypt.checkpw] *)
  bcrypt_checkpw : string → string → result bool;
  (** the keyed signature of the [jwt] library: algorithm, key, claims *)
  jws_sign : string → string → gmap string value → string;
  (** the built-in [int] on a string: the number, or [None] for [ValueError] *)
  int_of_str : string → option Z;
  (** [datetime.isoformat] *)
  isoformat : datetime → string;
  (** [settings.JWT_SECRET_KEY] *)
  JWT_SECRET_KEY : string
}.

Section Program.
Context {env : Env}.

Definition utcnow : M datetime := λ w,
  (Ok (utcnow_at (clock_reads w)),
   World (S (clock_reads w)) (rng_draws w) (attempts w) (trace w)).

Definition token_urlsafe : M string := λ w,
  (Ok (token_urlsafe_at (rng_draws w)),
   World (clock_reads w) (S (rng_draws w)) (attempts w) (trace w)).

(** ** RateLimiter *)

Record RateLimiter := {
  max_attempts : Z;
  window : Z   (* seconds *)
}.

(** [self.attempts[key]] on a [defaultdict(list)]: a missing key is entered
    with an empty list. *)
Definition attempts_getitem (key : string) : M (list datetime) :=
  a ← get_attempts;
  match a !! key with
  | Some l => mret l
  | None => set_attempts (<[key := []]> a);; mret []
  end.

(** [self.attempts[key] = l] *)
Definition attempts_setitem (key : string) (l : list datetime) : M unit :=
  a ← get_attempts;
  set_attempts (<[key := l]> a).

(** [self.attempts[key].append(x)] *)
Definition attempts_append (key : string) (x : datetime) : M unit :=
  l ← attempts_getitem key;
  attempts_setitem key (l ++ [x]).

(** The first line enters the call in the trace; the rest is the body of the
    source.  The body has no [await]. *)
Definition check_rate_limit (self : RateLimiter) (key : string) : M bool :=
  emit (CheckRateLimit key);;
  now ← utcnow;
  let cutoff := now - timedelta_seconds (window self) in
  old ← attempts_getitem key;
  attempts_setitem key (filter (λ attempt, cutoff < attempt) old);;
  current ← attempts_getitem key;
  if decide (max_attempts self ≤ Z.of_nat (length current)) then
    mret false
  else
    attempts_append key now;;
    mret true.

(** [RateLimiter.__call__]: the decorator.  [kwargs] are the keyword
    arguments of the call; [client_ip] is what [kwargs.get("client_ip")]
    finds, [None] when the caller passed no such keyword. *)
Definition RateLimiter_call {K A} (self : RateLimiter)
    (client_ip_of : K → option string) (func : K → M A) : K → M A := λ kwargs,
  let client_ip := default "unknown" (client_ip_of kwargs) in
  allowed ← check_rate_limit self client_ip;
  if negb allowed then
    raise (HTTPException 429 "Rate limit exceeded")
  else
    func kwargs.

(** [n] calls of [check_rate_limit] for one key, one after the other, with
    their results in call order. *)
Fixpoint check_rate_limit_times (self : RateLimiter) (key : string) (n : nat)
    : M (list bool) :=
  match n with
  | O => mret []
  | S n' =>
      b ← check_rate_limit self key;
      bs ← check_rate_limit_times self key n';
      mret (b :: bs)
  end.

(** Calls of [check_rate_limit] for a list of keys, one after the other. *)
Fixpoint check_rate_limit_each (self : RateLimiter) (keys : list string)
    : M (list bool) :=
  match keys with
  | [] => mret []
  | key :: keys' =>
      b ← check_rate_limit self key;
      bs ← check_rate_limit_each self keys';
      mret (b :: bs)
  end.

(** ** The jwt library (PyJWT)

    A token string is seen through the library's parser: not a compact
    serialization at all, or a header naming an algorithm, a claim set and a
    signature.  [jwt.encode] turns [datetime] claims into whole seconds and
    signs.  [jwt.decode] checks, in this order: that the token parses, that
    its algorithm is one of the accepted ones, its signature, and then its
    claims against the clock: [iat], [nbf], [exp], [aud], [sub], [jti].
    [ExpiredSignatureError] is what an [exp] at or before the current time
    gives; every other failure is an [InvalidTokenError] of some kind.  The
    text of the error for a string that does not parse depends on how the
    parse fails and is not modelled. *)

Inductive token :=
| Unparseable (raw : string)
| Compact (alg : string) (claims : gmap string value) (signature : string).

Definition numeric_date (v : value) : value :=
  match v with
  | VDatetime t => VInt (t `div` 1000000)
  | _ => v
  end.

Definition jwt_encode (payload : gmap string value) (key algorithm : string)
    : M token :=
  emit JwtEncode;;
  let claims := numeric_date <$> payload in
  mret (Compact algorithm claims (jws_sign algorithm key claims)).

(** [int(v)] as the claim validators call it: a [ValueError] becomes the
    library's error [invalid]; a [TypeError] passes. *)
Definition int_claim (v : value) (invalid : string) : result Z :=
  match v with
  | VInt n => Ok n
  | VStr s =>
      match int_of_str s with
      | Some n => Ok n
      | None => Raise (InvalidTokenError invalid)
      end
  | VDatetime _ => Raise (OtherError "int() argument must be a string, a bytes-like object or a real number, not 'datetime.datetime'")
  end.

(** [not v] *)
Definition falsy (v : value) : bool :=
  match v with
  | VStr s => bool_decide (s = "")
  | VInt n => bool_decide (n = 0)
  | VDatetime _ => false
  end.

(** The claim validators.  [now] is the clock in whole seconds: the library
    compares the integer claim with the clock as a fraction, and an integer
    is greater than a fraction exactly when it is greater than its whole
    part. *)
Definition validate_iat (payload : gmap string value) (now : Z) : result unit :=
  match payload !! "iat" with
  | None => Ok ()
  | Some v =>
      iat ← int_claim v "Issued At claim (iat) must be an integer.";
      if decide (now < iat) then
        Raise (InvalidTokenError "The token is not yet valid (iat)")
      else Ok ()
  end.

Definition validate_nbf (payload : gmap string value) (now : Z) : result unit :=
  match payload !! "nbf" with
  | None => Ok ()
  | Some v =>
      nbf ← int_claim v "Not Before claim (nbf) must be an integer.";
      if decide (now < nbf) then
        Raise (InvalidTokenError "The token is not yet valid (nbf)")
      else Ok ()
  end.

Definition validate_exp (payload : gmap string value) (now : Z) : result unit :=
  match payload !! "exp" with
  | None => Ok ()
  | Some v =>
      exp ← int_claim v "Expiration Time claim (exp) must be an integer.";
      if decide (exp ≤ now) then Raise ExpiredSignatureError else Ok ()
  end.

(** No audience is passed to [jwt.decode]: an [aud] claim that is not empty is
    refused. *)
Definition validate_aud (payload : gmap string value) : result unit :=
  match payload !! "aud" with
  | None => Ok ()
  | Some v =>
      if falsy v then Ok () else Raise (InvalidTokenError "Invalid audience")
  end.

Definition validate_sub (payload : gmap string value) : result unit :=
  match payload !! "sub" with
  | None | Some (VStr _) => Ok ()
  | Some _ => Raise (InvalidTokenError "Subject must be a string")
  end.

Definition validate_jti (payload : gmap string value) : result unit :=
  match payload !! "jti" with
  | None | Some (VStr _) => Ok ()
  | Some _ => Raise (InvalidTokenError "JWT ID must be a string")
  end.

Definition validate_claims (payload : gmap string value) (now : Z) : result unit :=
  validate_iat payload now;;
  validate_nbf payload now;;
  validate_exp payload now;;
  validate_aud payload;;
  validate_sub payload;;
  validate_jti payload.

Definition jwt_decode (tok : token) (key : string) (algorithms : list string)
    : M (gmap string value) :=
  emit JwtDecode;;
  match tok with
  | Unparseable _ => raise (InvalidTokenError "Not enough segments")
  | Compact alg claims signature =>
      if decide (alg ∈ algorithms) then
        if decide (signature = jws_sign alg key claims) then
          now ← utcnow;
          lift (validate_claims claims (now `div` 1000000));;
          mret claims
        else raise (InvalidTokenError "Signature verification failed")
      else raise (InvalidTokenError "The specified alg value is not allowed")
  end.

(** ** AuthService *)

Record AuthService := {
  jwt_secret : string;
  jwt_algorithm : string;
  access_token_expire_minutes : Z;
  refresh_token_expire_days : Z
}.

(** [AuthService.__init__] *)
Definition AuthService_init : AuthService := {|
  jwt_secret := JWT_SECRET_KEY;
  jwt_algorithm := "HS256";
  access_token_expire_minutes := 60;
  refresh_token_expire_days := 7
|}.

Record HTTPAuthorizationCredentials := {
  scheme : string;
  credentials : token
}.

Record user_summary := {
  summary_id : string;
  summary_email : string;
  summary_name : string
}.

Record login_data := {
  data_user : user_summary;
  access_token : token;
  refresh_token : token;
  token_type : string
}.

Record response_meta := {
  meta_trace_id : string;
  meta_timestamp : string
}.

(** The response envelope of a successful login; [error] is [None]. *)
Record envelope := {
  data : login_data;
  error : option string;
  meta : response_meta
}.

Definition invalid_credentials_message : string :=
  "IDまたはパスワードが正しくありません".

Definition _get_user_by_email (email trace_id : string) : M User.t :=
  emit (GetByEmail email);;
  user ← lift (User_get_by_email email);
  match user with
  | None => raise (UserNotFoundException "User not found" "USER_001" trace_id)
  | Some user => mret user
  end.

Definition _verify_password (plain_password hashed_password : string) : M bool :=
  emit Checkpw;;
  lift (bcrypt_checkpw plain_password hashed_password).

(** The dict literal is evaluated in source order: the clock is read once for
    [exp] and once more for [iat]. *)
Definition _create_access_token (self : AuthService) (user_id : string) : M token :=
  t_exp ← utcnow;
  t_iat ← utcnow;
  let payload : gmap string value :=
    <["type" := VStr "access"]>
      (<["iat" := VDatetime t_iat]>
        (<["exp" := VDatetime (t_exp + timedelta_minutes (access_token_expire_minutes self))]>
          (<["sub" := VStr user_id]> ∅))) in
  jwt_encode payload (jwt_secret self) (jwt_algorithm self).

Definition _create_refresh_token (self : AuthService) (user_id : string) : M token :=
  t_exp ← utcnow;
  t_iat ← utcnow;
  jti ← token_urlsafe;
  let payload : gmap string value :=
    <["jti" := VStr jti]>
      (<["type" := VStr "refresh"]>
        (<["iat" := VDatetime t_iat]>
          (<["exp" := VDatetime (t_exp + timedelta_days (refresh_token_expire_days self))]>
            (<["sub" := VStr user_id]> ∅)))) in
  jwt_encode payload (jwt_secret self) (jwt_algorithm self).

Definition authenticate_user (self : AuthService)
    (email password trace_id : string) : M envelope :=
  try_except
    (user ← _get_user_by_email email trace_id;
     verified ← _verify_password password (User.password_hash user);
     if negb verified then
       emit (Log WARNING "Authentication failed"
               [("trace_id", trace_id); ("user_id", User.id user);
                ("error_type", "invalid_credentials")]);;
       raise (AuthenticationError invalid_credentials_message "AUTH_001" trace_id)
     else
       access ← _create_access_token self (User.id user);
       refresh ← _create_refresh_token self (User.id user);
       emit (Log INFO "User authenticated successfully"
               [("trace_id", trace_id); ("user_id", User.id user)]);;
       now ← utcnow;
       mret {|
         data := {|
           data_user := {|
             summary_id := User.id user;
             summary_email := User.email user;
             summary_name := User.name user
           |};
           access_token := access;
           refresh_token := refresh;
           token_type := "bearer"
         |};
         error := None;
         meta := {|
           meta_trace_id := trace_id;
           meta_timestamp := isoformat now +:+ "Z"
         |}
       |})
    (λ e,
       match e with
       | UserNotFoundException _ _ _ =>
           Some (raise (AuthenticationError invalid_credentials_message "AUTH_001" trace_id))
       | _ =>
           Some (emit (Log ERROR "Unexpected error during authentication"
                         [("trace_id", trace_id); ("error", exn_str e)]);;
                 raise e)
       end).

(** The second [except] clause names [jwt.JWTError].  PyJWT has no such
    attribute, so when an exception that is not an [ExpiredSignatureError]
    reaches that clause, evaluating the clause raises [AttributeError], and
    that is what leaves [verify_token]: also for the [AuthorizationError] and
    the [KeyError] raised inside the [try] block. *)
Definition verify_token (self : AuthService)
    (creds : HTTPAuthorizationCredentials) (trace_id : string) : M value :=
  try_except
    (payload ← jwt_decode (credentials creds) (jwt_secret self) [jwt_algorithm self];
     if decide (payload !! "type" ≠ Some (VStr "access")) then
       raise (AuthorizationError "Invalid token type" "AUTH_002" trace_id)
     else
       match payload !! "sub" with
       | Some user_id => mret user_id
       | None => raise (KeyError "sub")
       end)
    (λ e,
       match e with
       | ExpiredSignatureError =>
           Some (raise (AuthorizationError "Token has expired" "AUTH_003" trace_id))
       | _ =>
           Some (raise (AttributeError "module 'jwt' has no attribute 'JWTError'"))
       end).

(** ** The decorated endpoint *)

(** The keyword arguments of a call of [login_endpoint]; [trace_id] and
    [client_ip] default to [None]. *)
Record login_kwargs := {
  kw_email : string;
  kw_password : string;
  kw_trace_id : option string;
  kw_client_ip : option string
}.

Definition rate_limiter : RateLimiter := {| max_attempts := 5; window := 300 |}.

(** The body of [login_endpoint].  The module never imports [uuid], so the
    branch that would draw a trace id raises [NameError]. *)
Definition login_endpoint_body (kwargs : login_kwargs) : M envelope :=
  trace_id ←
    match kw_trace_id kwargs with
    | Some t => if decide (t = "") then raise (NameError "uuid") else mret t
    | None => raise (NameError "uuid")
    end;
  authenticate_user AuthService_init (kw_email kwargs) (kw_password kwargs) trace_id.

Definition login_endpoint : login_kwargs → M envelope :=
  RateLimiter_call rate_limiter kw_client_ip login_endpoint_body.

End Program.

(** ** Words of the statements *)

Section Statements.
Context {env : Env}.

(** The timestamps recorded for [key]; none when the key was never seen. *)
Definition recorded (w : world) (key : string) : list datetime :=
  default [] (attempts w !! key).

(** What the comprehension of [check_rate_limit] keeps of [l] at time [now]. *)
Definition kept (self : RateLimiter) (now : datetime) (l : list datetime)
    : list datetime :=
  filter (λ attempt, now - timedelta_seconds (window self) < attempt) l.

(** [check_rate_limit] up to and including the assignment of the pruned list. *)
Definition check_rate_limit_prune (self : RateLimiter) (key : string) : M datetime :=
  emit (CheckRateLimit key);;
  now ← utcnow;
  let cutoff := now - timedelta_seconds (window self) in
  old ← attempts_getitem key;
  attempts_setitem key (filter (λ attempt, cutoff < attempt) old);;
  mret now.

(** [check_rate_limit] from the length check on. *)
Definition check_rate_limit_decide (self : RateLimiter) (key : string)
    (now : datetime) : M bool :=
  current ← attempts_getitem key;
  if decide (max_attempts self ≤ Z.of_nat (length current)) then
    mret false
  else
    attempts_append key now;;
    mret true.

(** The clock readings number [first], ..., [first + n - 1] lie in one
    window: none is at or before the cutoff of another. *)
Definition in_one_window (self : RateLimiter) (first n : nat) : Prop :=
  ∀ i j : nat, (first ≤ i < first + n)%nat → (first ≤ j < first + n)%nat →
    utcnow_at j - timedelta_seconds (window self) < utcnow_at i.

(** No key holds more timestamps than [max_attempts] allows. *)
Definition bounded (self : RateLimiter) (w : world) : Prop :=
  ∀ key, Z.of_nat (length (recorded w key)) ≤ Z.max 0 (max_attempts self).

(** What leaves [verify_token] when its second [except] clause is reached. *)
Definition no_JWTError : exn :=
  AttributeError "module 'jwt' has no attribute 'JWTError'".

(** The claim [name] is absent, or an integer not later than [now]. *)
Definition not_later (claims : gmap string value) (name : string) (now : Z) : Prop :=
  claims !! name = None ∨ ∃ n : Z, claims !! name = Some (VInt n) ∧ n ≤ now.

(** How many calls of a run were let through. *)
Definition granted (bs : list bool) : nat :=
  length (filter (λ b : bool, b = true) bs).

(** The timestamp [a] is later than the cutoff of every one of the clock
    readings number [first], ..., [first + n - 1]. *)
Definition outlasts (self : RateLimiter) (first n : nat) (a : datetime) : Prop :=
  Forall (λ j : nat, utcnow_at j - timedelta_seconds (window self) < a) (seq first n).

Global Instance outlasts_dec (self : RateLimiter) (first n : nat) (a : datetime) :
  Decision (outlasts self first n a).
Proof. unfold outlasts. apply _. Defined.

(** The clock never runs backwards. *)
Definition clock_monotone : Prop :=
  ∀ i j : nat, (i ≤ j)%nat → utcnow_at i ≤ utcnow_at j.

(** Every key's timestamps are in ascending order and none is later than the
    next reading of the clock. *)
Definition chronological (w : world) : Prop :=
  ∀ key : string,
    StronglySorted Z.le (recorded w key)
    ∧ ∀ a : datetime, a ∈ recorded w key → a ≤ utcnow_at (clock_reads w).

End Statements.

(** ** A concrete environment

    The scenario of the specification: one identity, [a@x.com] with the hash
    of [pw1]; a clock that advances one second between readings. *)

(** Plain decimal numerals, with or without a sign: part of what [int] reads. *)
Fixpoint decimal_digits (s : string) (acc : Z) : option Z :=
  match s with
  | EmptyString => Some acc
  | String c s' =>
      let d := Z.of_nat (Ascii.nat_of_ascii c) - 48 in
      if decide (0 ≤ d ≤ 9) then decimal_digits s' (10 * acc + d) else None
  end.

Definition decimal (s : string) : option Z :=
  match s with
  | EmptyString => None
  | String c s' =>
      if decide (s' = "") then decimal_digits s 0
      else if decide (c = Ascii.ascii_of_nat 45) then Z.opp <$> decimal_digits s' 0
      else if decide (c = Ascii.ascii_of_nat 43) then decimal_digits s' 0
      else decimal_digits s 0
  end.

Definition alice : User.t := {|
  User.id := "u1";
  User.email := "a@x.com";
  User.name := "Alice";
  User.password_hash := "H(pw1)"
|}.

Definition scenario : Env := {|
  utcnow_at n := Z.of_nat n * 1000000;
  token_urlsafe_at n := "jti-" +:+ pretty n;
  User_get_by_email e :=
    if decide (e = "a@x.com") then Ok (Some alice) else Ok None;
  bcrypt_checkpw plain hashed := Ok (bool_decide (hashed = "H(" +:+ plain +:+ ")"));
  jws_sign alg key claims := alg +:+ ":" +:+ key;
  int_of_str := decimal;
  isoformat t := pretty t;
  JWT_SECRET_KEY := "k"
|}.

Definition scenario_service : AuthService := AuthService_init (env:=scenario).

(** Claim sets a holder of the key can sign. *)
Definition expired_refresh_claims : gmap string value :=
  <["type" := VStr "refresh"]> (<["exp" := VInt 10]> (<["sub" := VStr "u1"]> ∅)).

(** A claim set whose expiry has passed at second 20 although it is not yet
    valid. *)
Definition not_yet_valid_claims : gmap string value :=
  <["type" := VStr "access"]>
    (<["nbf" := VInt 100]> (<["exp" := VInt 10]> (<["sub" := VStr "u1"]> ∅))).

Definition subjectless_claims : gmap string value :=
  <["type" := VStr "access"]> (<["exp" := VInt 10]> ∅).

Definition signed_by_scenario (claims : gmap string value) : HTTPAuthorizationCredentials := {|
  scheme := "Bearer";
  credentials := Compact "HS256" claims (jws_sign (Env:=scenario) "HS256" "k" claims)
|}.

(** A limiter table that remembers one attempt of 400 seconds before the
    epoch. *)
Definition seen_long_ago : world :=
  World 0 0 {[ "203.0.113.7" := [-400000000] ]} [].

Definition login_as_alice : login_kwargs := {|
  kw_email := "a@x.com";
  kw_password := "pw1";
  kw_trace_id := Some "t-1";
  kw_client_ip := None
|}.

(** The scenario with collaborators that fail: the user store is down for
    every email but Alice's, and [bcrypt] rejects every hash as malformed. *)
Definition outage : Env := {|
  utcnow_at := utcnow_at (Env:=scenario);
  token_urlsafe_at := token_urlsafe_at (Env:=scenario);
  User_get_by_email e :=
    if decide (e = "a@x.com") then Ok (Some alice)
    else Raise (OtherError "connection refused");
  bcrypt_checkpw plain hashed := Raise (OtherError "Invalid salt");
  jws_sign := jws_sign (Env:=scenario);
  int_of_str := decimal;
  isoformat := isoformat (Env:=scenario);
  JWT_SECRET_KEY := "k"
|}.

(** The scenario with a clock that advances one day between readings. *)
Definition daily : Env := {|
  utcnow_at n := Z.of_nat n * 86400000000;
  token_urlsafe_at := token_urlsafe_at (Env:=scenario);
  User_get_by_email := User_get_by_email (Env:=scenario);
  bcrypt_checkpw := bcrypt_checkpw (Env:=scenario);
  jws_sign := jws_sign (Env:=scenario);
  int_of_str := decimal;
  isoformat := isoformat (Env:=scenario);
  JWT_SECRET_KEY := "k"
|}.

(** The scenario with a clock that is set back after its second reading:
    the readings are 0 h, 240 h, 4 h, 6 h, ... *)
Definition set_back : Env := {|
  utcnow_at n :=
    if decide (n = 1%nat) then 864000000000 else Z.of_nat n * 7200000000;
  token_urlsafe_at := token_urlsafe_at (Env:=scenario);
  User_get_by_email := User_get_by_email (Env:=scenario);
  bcrypt_checkpw := bcrypt_checkpw (Env:=scenario);
  jws_sign := jws_sign (Env:=scenario);
  int_of_str := decimal;
  isoformat := isoformat (Env:=scenario);
  JWT_SECRET_KEY := "k"
|}.

(** An access token for Alice without expiry. *)
Definition alice_access_claims : gmap string value :=
  <["type" := VStr "access"]> (<["sub" := VStr "u1"]> ∅).

Section Properties.
Context {env : Env}.

Ltac unfold_M :=
  unfold check_rate_limit, check_rate_limit_prune, check_rate_limit_decide,
    attempts_append, attempts_getitem, attempts_setitem,
    get_attempts, set_attempts, emit, utcnow, token_urlsafe, raise, lift,
    mbind, M_bind, mret, M_ret in *.

Lemma check_rate_limit_prune_run (self : RateLimiter) (key : string) (w : world) :
  check_rate_limit_prune self key w =
    (Ok (utcnow_at (clock_reads w)),
     World (S (clock_reads w)) (rng_draws w)
       (<[key := kept self (utcnow_at (clock_reads w)) (recorded w key)]> (attempts w))
       (trace w ++ [CheckRateLimit key])).
Proof.
  unfold_M. unfold recorded, kept. simpl.
  destruct (attempts w !! key) as [l|] eqn:E; simpl.
  - reflexivity.
  - rewrite insert_insert_eq. reflexivity.
Qed.

Lemma check_rate_limit_split (self : RateLimiter) (key : string) (w : world) :
  check_rate_limit self key w =
    (now ← check_rate_limit_prune self key; check_rate_limit_decide self key now) w.
Proof.
  unfold_M. simpl.
  destruct (attempts w !! key) as [l|] eqn:E; simpl; reflexivity.
Qed.

Lemma check_rate_limit_run (self : RateLimiter) (key : string) (w : world) :
  let now := utcnow_at (clock_reads w) in
  let l := kept self now (recorded w key) in
  check_rate_limit self key w =
    if decide (max_attempts self ≤ Z.of_nat (length l)) then
      (Ok false,
       World (S (clock_reads w)) (rng_draws w) (<[key := l]> (attempts w))
         (trace w ++ [CheckRateLimit key]))
    else
      (Ok true,
       World (S (clock_reads w)) (rng_draws w) (<[key := l ++ [now]]> (attempts w))
         (trace w ++ [CheckRateLimit key])).
Proof.
  intros now l. rewrite check_rate_limit_split.
  unfold mbind at 1. unfold M_bind at 1. rewrite check_rate_limit_prune_run.
  fold now. fold l. unfold_M. simpl. rewrite lookup_insert_eq.
  destruct (decide _); simpl.
  - reflexivity.
  - rewrite lookup_insert_eq. simpl. rewrite insert_insert_eq. reflexivity.
Qed.

Lemma filter_keeps_all {A} (P : A → Prop) `{∀ x, Decision (P x)} (l : list A) :
  (∀ x, x ∈ l → P x) → filter P l = l.
Proof.
  induction l as [|x l IH]; intros Hall; [done|].
  rewrite filter_cons_True; [|apply Hall; left].
  f_equal. apply IH. intros y Hy. apply Hall. by right.
Qed.

Lemma filter_drops_all {A} (P : A → Prop) `{∀ x, Decision (P x)} (l : list A) :
  (∀ x, x ∈ l → ¬ P x) → filter P l = [].
Proof.
  induction l as [|x l IH]; intros Hnone; [done|].
  rewrite filter_cons_False; [|apply Hnone; left].
  apply IH. intros y Hy. apply Hnone. by right.
Qed.

Lemma kept_length (self : RateLimiter) (now : datetime) (l : list datetime) :
  (length (kept self now l) ≤ length l)%nat.
Proof. apply length_filter. Qed.

Lemma recorded_insert (w : world) (key : string) (l : list datetime) c r t :
  recorded (World c r (<[key := l]> (attempts w)) t) key = l.
Proof. unfold recorded. simpl. by rewrite lookup_insert_eq. Qed.

Lemma recorded_insert_ne (w : world) (key key' : string) (l : list datetime) c r t :
  key ≠ key' →
  recorded (World c r (<[key := l]> (attempts w)) t) key' = recorded w key'.
Proof. intros Hne. unfold recorded. simpl. by rewrite lookup_insert_ne. Qed.

(** C6.  Every call of [check_rate_limit] first replaces the key's sequence by
    its entries later than [now - window]; the length that is then compared
    with [max_attempts] is the length of that pruned sequence, which holds no
    entry at or before the cutoff; and when that length reaches
    [max_attempts] the call returns [False] in exactly the pruned state:
    nothing is appended. *)
Theorem check_rate_limit_prunes_before_count
    (self : RateLimiter) (key : string) (w : world) :
  let now := utcnow_at (clock_reads w) in
  let cutoff := now - timedelta_seconds (window self) in
  ∃ w1 : world,
    check_rate_limit_prune self key w = (Ok now, w1)
    ∧ check_rate_limit self key w = check_rate_limit_decide self key now w1
    ∧ attempts w1 !! key = Some (filter (λ a, cutoff < a) (recorded w key))
    ∧ (∀ a, a ∈ recorded w1 key ↔ a ∈ recorded w key ∧ ¬ a ≤ cutoff)
    ∧ (max_attempts self ≤ Z.of_nat (length (recorded w1 key)) →
         check_rate_limit self key w = (Ok false, w1)
         ∧ recorded (check_rate_limit self key w).2 key = recorded w1 key)
    ∧ (Z.of_nat (length (recorded w1 key)) < max_attempts self →
         (check_rate_limit self key w).1 = Ok true
         ∧ recorded (check_rate_limit self key w).2 key = recorded w1 key ++ [now]).
Proof.
  intros now cutoff. eexists. split; [apply check_rate_limit_prune_run|].
  fold now. rewrite recorded_insert.
  split.
  { rewrite check_rate_limit_split. unfold mbind at 1. unfold M_bind at 1.
    by rewrite check_rate_limit_prune_run. }
  split; [simpl; by rewrite lookup_insert_eq|].
  split.
  { intros a. unfold kept. rewrite list_elem_of_filter. fold cutoff. split.
    - intros [Hlt Hin]. split; [done|lia].
    - intros [Hin Hlt]. split; [lia|done]. }
  pose proof (check_rate_limit_run self key w) as Hrun. simpl in Hrun.
  fold now in Hrun. split.
  - intros Hfull. rewrite Hrun. rewrite decide_True by done.
    split; [done|]. simpl. by rewrite recorded_insert.
  - intros Hroom. rewrite Hrun. rewrite decide_False by lia.
    split; [done|]. simpl. by rewrite recorded_insert.
Qed.

Lemma check_rate_limit_times_S (self : RateLimiter) (key : string) (n : nat)
    (w w1 : world) (b : bool) :
  check_rate_limit self key w = (Ok b, w1) →
  check_rate_limit_times self key (S n) w =
    match check_rate_limit_times self key n w1 with
    | (Ok bs, w2) => (Ok (b :: bs), w2)
    | (Raise e, w2) => (Raise e, w2)
    end.
Proof.
  intros Hstep. simpl. unfold mbind at 1. unfold M_bind at 1. rewrite Hstep.
  unfold mbind, M_bind. by destruct (check_rate_limit_times self key n w1) as [[bs|e] w2].
Qed.

(** While the key's sequence has room for them, successive calls are all
    let through, whatever the clock reads. *)
Lemma check_rate_limit_times_room (self : RateLimiter) (key : string) (n : nat) :
  ∀ w : world,
    Z.of_nat (length (recorded w key) + n) ≤ max_attempts self →
    (check_rate_limit_times self key n w).1 = Ok (replicate n true).
Proof.
  induction n as [|n IH]; intros w Hroom; [done|].
  pose proof (check_rate_limit_run self key w) as Hrun. simpl in Hrun.
  pose proof (kept_length self (utcnow_at (clock_reads w)) (recorded w key)) as Hlen.
  rewrite decide_False in Hrun by lia.
  rewrite (check_rate_limit_times_S _ _ _ _ _ _ Hrun).
  match goal with |- context [check_rate_limit_times _ _ _ ?w1] =>
    specialize (IH w1); destruct (check_rate_limit_times self key n w1) as [r w2]
  end.
  rewrite recorded_insert, length_app in IH. simpl in IH.
  rewrite IH by lia. done.
Qed.

(** With every recorded timestamp and every coming reading in one window,
    the calls that still find room are let through and the next one is denied. *)
Lemma check_rate_limit_times_full (self : RateLimiter) (key : string) (n : nat) :
  ∀ w : world,
    Z.of_nat (length (recorded w key) + n) = max_attempts self →
    (∀ (a : datetime) (j : nat), a ∈ recorded w key →
       (clock_reads w ≤ j < clock_reads w + S n)%nat →
       utcnow_at j - timedelta_seconds (window self) < a) →
    in_one_window self (clock_reads w) (S n) →
    (check_rate_limit_times self key (S n) w).1 = Ok (replicate n true ++ [false]).
Proof.
  induction n as [|n IH]; intros w Hfull Hold Hwin.
  - pose proof (check_rate_limit_run self key w) as Hrun. simpl in Hrun.
    unfold kept in Hrun. rewrite filter_keeps_all in Hrun.
    2:{ intros a Ha. apply Hold; [done|lia]. }
    rewrite decide_True in Hrun by lia.
    by rewrite (check_rate_limit_times_S _ _ _ _ _ _ Hrun).
  - pose proof (check_rate_limit_run self key w) as Hrun. simpl in Hrun.
    unfold kept in Hrun. rewrite filter_keeps_all in Hrun.
    2:{ intros a Ha. apply Hold; [done|lia]. }
    rewrite decide_False in Hrun by lia.
    rewrite (check_rate_limit_times_S _ _ _ _ _ _ Hrun).
    match goal with |- context [check_rate_limit_times _ _ _ ?w1] =>
      specialize (IH w1);
      destruct (check_rate_limit_times self key (S n) w1) as [r w2] eqn:Hrest
    end.
    rewrite recorded_insert, length_app in IH. simpl in IH.
    rewrite IH; [done|lia| |].
    + intros a j Ha Hj. apply elem_of_app in Ha as [Ha|Ha].
      * apply Hold; [done|lia].
      * apply list_elem_of_singleton in Ha as ->. apply Hwin; lia.
    + intros i j Hi Hj. apply Hwin; lia.
Qed.

(** Calls made one after the other with all timestamps in one window: the
    ones that find room are let through, all later ones are denied. *)
Lemma check_rate_limit_times_window (self : RateLimiter) (key : string) (n : nat) :
  ∀ w : world,
    Z.of_nat (length (recorded w key)) ≤ max_attempts self →
    (∀ (a : datetime) (j : nat), a ∈ recorded w key →
       (clock_reads w ≤ j < clock_reads w + n)%nat →
       utcnow_at j - timedelta_seconds (window self) < a) →
    in_one_window self (clock_reads w) n →
    let room := (Z.to_nat (max_attempts self) - length (recorded w key))%nat in
    (check_rate_limit_times self key n w).1
      = Ok (replicate (n `min` room) true ++ replicate (n - room) false).
Proof.
  induction n as [|n IH]; intros w Hlen Hold Hwin room; [done|].
  pose proof (check_rate_limit_run self key w) as Hrun. simpl in Hrun.
  unfold kept in Hrun. rewrite filter_keeps_all in Hrun.
  2:{ intros a Ha. apply Hold; [done|lia]. }
  destruct (decide _) as [Hfull|Hroom];
    rewrite (check_rate_limit_times_S _ _ _ _ _ _ Hrun);
    match goal with |- context [check_rate_limit_times _ _ _ ?w1] =>
      specialize (IH w1);
      destruct (check_rate_limit_times self key n w1) as [r w2] eqn:Hrest
    end;
    rewrite recorded_insert in IH; cbn [clock_reads fst] in IH.
  - rewrite IH; [|done| |].
    + assert (room = 0%nat) as -> by (unfold room; lia).
      replace (Z.to_nat (max_attempts self) - length (recorded w key))%nat
        with 0%nat by lia.
      rewrite Nat.min_0_r, !Nat.sub_0_r. done.
    + intros a j Ha Hj. apply Hold; [done|lia].
    + intros i j Hi Hj. apply Hwin; lia.
  - rewrite IH.
    + rewrite length_app. cbn [length].
      assert (∃ k, room = S k
                   ∧ (Z.to_nat (max_attempts self)
                      - (length (recorded w key) + 1))%nat = k) as (k & -> & ->).
      { exists (room - 1)%nat. unfold room. lia. }
      done.
    + rewrite length_app. cbn [length]. lia.
    + intros a j Ha Hj. apply elem_of_app in Ha as [Ha|Ha].
      * apply Hold; [done|lia].
      * apply list_elem_of_singleton in Ha as ->. apply Hwin; lia.
    + intros i j Hi Hj. apply Hwin; lia.
Qed.

(** Twenty calls made one after the other in one window against the
    module's limiter: five return [True], fifteen [False]. *)
Corollary check_rate_limit_twenty (key : string) (w : world) :
  recorded w key = [] →
  in_one_window rate_limiter (clock_reads w) 20 →
  (check_rate_limit_times rate_limiter key 20 w).1
    = Ok (replicate 5 true ++ replicate 15 false).
Proof.
  intros Hfresh Hwin.
  rewrite check_rate_limit_times_window; [by rewrite Hfresh| | |done].
  - rewrite Hfresh. simpl. lia.
  - rewrite Hfresh. intros a j Ha. by apply elem_of_nil in Ha.
Qed.

(** C2.  Take a key none of whose recorded attempts lies in the window of the
    next call (a key never seen, or seen only long ago).  Any
    [n ≤ max_attempts] successive calls of [check_rate_limit] for it all
    return [True]; and when the readings of the clock taken by
    [max_attempts + 1] successive calls lie in one window, the first
    [max_attempts] of them return [True] and the last one returns [False]. *)
Theorem check_rate_limit_burst (self : RateLimiter) (key : string) (w : world) :
  (∀ a : datetime, a ∈ recorded w key →
     a ≤ utcnow_at (clock_reads w) - timedelta_seconds (window self)) →
  (∀ n : nat, Z.of_nat n ≤ max_attempts self →
     (check_rate_limit_times self key n w).1 = Ok (replicate n true))
  ∧ (0 ≤ max_attempts self →
     in_one_window self (clock_reads w) (S (Z.to_nat (max_attempts self))) →
     (check_rate_limit_times self key (S (Z.to_nat (max_attempts self))) w).1
       = Ok (replicate (Z.to_nat (max_attempts self)) true ++ [false])).
Proof.
  intros Hstale.
  pose proof (check_rate_limit_run self key w) as Hrun. simpl in Hrun.
  unfold kept in Hrun. rewrite filter_drops_all in Hrun.
  2:{ intros a Ha. specialize (Hstale a Ha). lia. }
  cbn [length app] in Hrun. split.
  - intros [|n] Hn; [done|].
    rewrite decide_False in Hrun by lia.
    rewrite (check_rate_limit_times_S _ _ _ _ _ _ Hrun).
    match goal with |- context [check_rate_limit_times _ _ _ ?w1] =>
      pose proof (check_rate_limit_times_room self key n w1) as Hrest;
      destruct (check_rate_limit_times self key n w1) as [r w2]
    end.
    rewrite recorded_insert in Hrest. cbn [length fst] in Hrest.
    rewrite Hrest by lia. done.
  - intros Hmax Hwin.
    destruct (Z.to_nat (max_attempts self)) as [|m] eqn:Hm.
    + rewrite decide_True in Hrun by lia.
      by rewrite (check_rate_limit_times_S _ _ _ _ _ _ Hrun).
    + rewrite decide_False in Hrun by lia.
      rewrite (check_rate_limit_times_S _ _ _ _ _ _ Hrun).
      match goal with |- context [check_rate_limit_times _ _ _ ?w1] =>
        pose proof (check_rate_limit_times_full self key m w1) as Hrest;
        destruct (check_rate_limit_times self key (S m) w1) as [r w2]
      end.
      rewrite recorded_insert in Hrest. cbn [length fst clock_reads] in Hrest.
      rewrite Hrest; [done|lia| |].
      * intros a j Ha Hj. apply list_elem_of_singleton in Ha as ->.
        apply Hwin; lia.
      * intros i j Hi Hj. apply Hwin; lia.
Qed.

Lemma check_rate_limit_bounded (self : RateLimiter) (key : string) (w : world) :
  bounded self w → bounded self (check_rate_limit self key w).2.
Proof.
  intros Hb key'.
  pose proof (check_rate_limit_run self key w) as Hrun. simpl in Hrun.
  pose proof (kept_length self (utcnow_at (clock_reads w)) (recorded w key)) as Hlen.
  specialize (Hb key) as Hk.
  destruct (decide (key = key')) as [<-|Hne].
  - destruct (decide _) as [Hfull|Hroom]; rewrite Hrun; simpl;
      rewrite recorded_insert; [lia|].
    rewrite length_app. simpl. lia.
  - destruct (decide _); rewrite Hrun; simpl;
      rewrite recorded_insert_ne by done; apply Hb.
Qed.

Lemma check_rate_limit_each_bounded (self : RateLimiter) (keys : list string) :
  ∀ w : world, bounded self w → bounded self (check_rate_limit_each self keys w).2.
Proof.
  induction keys as [|key keys IH]; intros w Hb; [done|].
  simpl. unfold mbind at 1. unfold M_bind at 1.
  pose proof (check_rate_limit_bounded self key w Hb) as Hb1.
  pose proof (check_rate_limit_run self key w) as Hrun. simpl in Hrun.
  destruct (check_rate_limit self key w) as [[b|e] w1]; simpl in Hb1.
  - specialize (IH w1 Hb1). unfold mbind, M_bind.
    by destruct (check_rate_limit_each self keys w1) as [[bs|e] w2].
  - by destruct (decide _).
Qed.

Lemma world0_bounded (self : RateLimiter) : bounded self world0.
Proof. intros key. unfold recorded. simpl. rewrite lookup_empty. simpl. lia. Qed.

(** C7.  In every state the limiter reaches from its initial state, whatever
    calls were let through or denied on the way, a call for [key] whose clock
    reading lies at least [window] after the oldest timestamp still recorded
    for [key] returns [True]. *)
Theorem check_rate_limit_slides (self : RateLimiter) (history : list string)
    (key : string) (first : datetime) (rest : list datetime) :
  let w := (check_rate_limit_each self history world0).2 in
  recorded w key = first :: rest →
  first + timedelta_seconds (window self) ≤ utcnow_at (clock_reads w) →
  (check_rate_limit self key w).1 = Ok true.
Proof.
  intros w Hrec Hlate.
  pose proof (check_rate_limit_each_bounded self history world0
                (world0_bounded self) key) as Hb.
  fold w in Hb. rewrite Hrec in Hb. cbn [length] in Hb.
  pose proof (check_rate_limit_run self key w) as Hrun. simpl in Hrun.
  rewrite Hrec in Hrun.
  assert (kept self (utcnow_at (clock_reads w)) (first :: rest)
          = kept self (utcnow_at (clock_reads w)) rest) as Hdrop.
  { unfold kept. apply filter_cons_False. lia. }
  rewrite Hdrop in Hrun.
  pose proof (kept_length self (utcnow_at (clock_reads w)) rest) as Hlen.
  rewrite decide_False in Hrun by lia. by rewrite Hrun.
Qed.

(** *** Login *)

Ltac unfold_auth :=
  unfold authenticate_user, verify_token, try_except,
    _create_access_token, _create_refresh_token,
    _get_user_by_email, _verify_password, jwt_decode, jwt_encode in *;
  unfold_M.

(** C1.  A login whose email matches no identity and a login whose email
    matches an identity but whose password fails verification raise the same
    exception: [AuthenticationError] with the same message, the code
    [AUTH_001] and the caller's trace id.  Neither reads the clock, draws
    randomness or touches the rate limiter's table. *)
Theorem authenticate_user_uniform_failure (self : AuthService)
    (email_missing password_any email_known password_wrong trace_id : string)
    (user : User.t) (w1 w2 : world) :
  User_get_by_email email_missing = Ok None →
  User_get_by_email email_known = Ok (Some user) →
  bcrypt_checkpw password_wrong (User.password_hash user) = Ok false →
  let missing := authenticate_user self email_missing password_any trace_id w1 in
  let wrong := authenticate_user self email_known password_wrong trace_id w2 in
  missing.1 = Raise (AuthenticationError invalid_credentials_message "AUTH_001" trace_id)
  ∧ wrong.1 = missing.1
  ∧ (clock_reads missing.2, rng_draws missing.2, attempts missing.2)
      = (clock_reads w1, rng_draws w1, attempts w1)
  ∧ (clock_reads wrong.2, rng_draws wrong.2, attempts wrong.2)
      = (clock_reads w2, rng_draws w2, attempts w2).
Proof.
  intros Hmissing Hknown Hwrong missing wrong. subst missing wrong.
  unfold_auth. simpl. rewrite Hmissing, Hknown. simpl. rewrite Hwrong. simpl.
  done.
Qed.

(** *** Token validation *)

Lemma jwt_decode_genuine (key alg : string) (claims : gmap string value) (w : world) :
  jwt_decode (Compact alg claims (jws_sign alg key claims)) key [alg] w =
    (match validate_claims claims (utcnow_at (clock_reads w) `div` 1000000) with
     | Ok _ => Ok claims
     | Raise e => Raise e
     end,
     World (S (clock_reads w)) (rng_draws w) (attempts w) (trace w ++ [JwtDecode])).
Proof.
  unfold jwt_decode. unfold_M. simpl.
  rewrite decide_True by (by apply list_elem_of_singleton).
  rewrite decide_True by done. simpl.
  by destruct (validate_claims _ _) as [[]|e].
Qed.

(** What [verify_token] answers to a token that carries the signature of its
    claims. *)
Lemma verify_token_genuine (self : AuthService) (sch trace_id : string)
    (claims : gmap string value) (w : world) :
  (verify_token self
     {| scheme := sch;
        credentials :=
          Compact (jwt_algorithm self) claims
            (jws_sign (jwt_algorithm self) (jwt_secret self) claims) |}
     trace_id w).1 =
    match validate_claims claims (utcnow_at (clock_reads w) `div` 1000000) with
    | Raise ExpiredSignatureError =>
        Raise (AuthorizationError "Token has expired" "AUTH_003" trace_id)
    | Raise _ => Raise no_JWTError
    | Ok _ =>
        if decide (claims !! "type" ≠ Some (VStr "access")) then Raise no_JWTError
        else
          match claims !! "sub" with
          | Some user_id => Ok user_id
          | None => Raise no_JWTError
          end
    end.
Proof.
  unfold verify_token, try_except, mbind at 1, M_bind at 1. simpl.
  rewrite jwt_decode_genuine.
  destruct (validate_claims _ _) as [[]|e].
  - unfold_M. destruct (decide _); [done|]. by destruct (claims !! "sub").
  - by destruct e.
Qed.

Lemma validate_iat_not_later (claims : gmap string value) (now : Z) :
  not_later claims "iat" now → validate_iat claims now = Ok ().
Proof.
  unfold validate_iat. intros [->|(n & -> & Hn)]; [done|].
  simpl. unfold mbind, result_bind. by rewrite decide_False by lia.
Qed.

Lemma validate_nbf_not_later (claims : gmap string value) (now : Z) :
  not_later claims "nbf" now → validate_nbf claims now = Ok ().
Proof.
  unfold validate_nbf. intros [->|(n & -> & Hn)]; [done|].
  simpl. unfold mbind, result_bind. by rewrite decide_False by lia.
Qed.

Lemma validate_claims_expired (claims : gmap string value) (exp now : Z) :
  not_later claims "iat" now →
  not_later claims "nbf" now →
  claims !! "exp" = Some (VInt exp) →
  exp ≤ now →
  validate_claims claims now = Raise ExpiredSignatureError.
Proof.
  intros Hiat Hnbf Hexp Hpast. unfold validate_claims.
  rewrite validate_iat_not_later, validate_nbf_not_later by done.
  unfold validate_exp. rewrite Hexp. simpl. unfold mbind, result_bind.
  by rewrite decide_True.
Qed.

Lemma int_claim_not_expired (v : value) (invalid : string) :
  int_claim v invalid ≠ Raise ExpiredSignatureError.
Proof. destruct v as [s|n|t]; simpl; [|done|done]. by destruct (int_of_str s). Qed.

(** The validators before [exp] never report expiry, and [exp] reports it
    only for a claim at or before the clock. *)
Lemma validate_claims_expired_inv (claims : gmap string value) (now : Z) :
  validate_claims claims now = Raise ExpiredSignatureError →
  ∃ (v : value) (exp : Z),
    claims !! "exp" = Some v
    ∧ int_claim v "Expiration Time claim (exp) must be an integer." = Ok exp
    ∧ exp ≤ now.
Proof.
  unfold validate_claims, validate_iat, validate_nbf, validate_exp, validate_aud,
    validate_sub, validate_jti, mbind, result_bind.
  intros Hexpired.
  repeat (case_match; simplify_eq; try done).
  all: try (by exfalso; eapply int_claim_not_expired).
  all: eauto.
Qed.

Lemma verify_token_past (self : AuthService) (sch trace_id : string)
    (claims : gmap string value) (exp : Z) (w : world) :
  not_later claims "iat" (utcnow_at (clock_reads w) `div` 1000000) →
  not_later claims "nbf" (utcnow_at (clock_reads w) `div` 1000000) →
  claims !! "exp" = Some (VInt exp) →
  exp ≤ utcnow_at (clock_reads w) `div` 1000000 →
  (verify_token self
     {| scheme := sch;
        credentials :=
          Compact (jwt_algorithm self) claims
            (jws_sign (jwt_algorithm self) (jwt_secret self) claims) |}
     trace_id w).1
    = Raise (AuthorizationError "Token has expired" "AUTH_003" trace_id).
Proof.
  intros Hiat Hnbf Hexp Hpast.
  by rewrite verify_token_genuine, (validate_claims_expired _ exp).
Qed.

(** C4.  Validation looks at the signature first, then at the [iat] and [nbf]
    claims, then at the expiry, then at the kind.  Take any token that
    carries the signature of its claims under the service's key, whose [iat]
    and [nbf] claims, if it has them, are integers not later than the time of
    validation, and whose [exp] is at or before that time.  The answer is
    [AUTH_003] (token expired), not [AUTH_004] (malformed) and not [AUTH_002]
    (wrong type), whatever its [type] claim says. *)
Theorem verify_token_expired (self : AuthService) (sch trace_id : string)
    (claims : gmap string value) (exp : Z) (w : world) :
  let now := utcnow_at (clock_reads w) `div` 1000000 in
  not_later claims "iat" now →
  not_later claims "nbf" now →
  claims !! "exp" = Some (VInt exp) →
  exp ≤ now →
  let answer :=
    (verify_token self
       {| scheme := sch;
          credentials :=
            Compact (jwt_algorithm self) claims
              (jws_sign (jwt_algorithm self) (jwt_secret self) claims) |}
       trace_id w).1 in
  answer = Raise (AuthorizationError "Token has expired" "AUTH_003" trace_id)
  ∧ answer ≠ Raise (AuthorizationError "Invalid token" "AUTH_004" trace_id)
  ∧ answer ≠ Raise (AuthorizationError "Invalid token type" "AUTH_002" trace_id).
Proof.
  intros now Hiat Hnbf Hexp Hpast answer.
  assert (answer = Raise (AuthorizationError "Token has expired" "AUTH_003" trace_id))
    as ->; [|done].
  subst answer. by eapply verify_token_past.
Qed.

(** *** Token issuance *)

Lemma numeric_date_after (t s : Z) :
  (t + timedelta_seconds s) `div` 1000000 = t `div` 1000000 + s.
Proof. unfold timedelta_seconds. by rewrite Z.div_add. Qed.

Lemma create_access_token_run (self : AuthService) (user_id : string) (w : world) :
  _create_access_token self user_id w =
    let claims : gmap string value :=
      <["type" := VStr "access"]>
        (<["iat" := VInt (utcnow_at (S (clock_reads w)) `div` 1000000)]>
          (<["exp" := VInt (utcnow_at (clock_reads w) `div` 1000000
                            + access_token_expire_minutes self * 60)]>
            (<["sub" := VStr user_id]> ∅))) in
    (Ok (Compact (jwt_algorithm self) claims
           (jws_sign (jwt_algorithm self) (jwt_secret self) claims)),
     World (S (S (clock_reads w))) (rng_draws w) (attempts w) (trace w ++ [JwtEncode])).
Proof.
  unfold_auth. cbn [clock_reads rng_draws attempts trace].
  rewrite !fmap_insert, fmap_empty. cbn [numeric_date].
  unfold timedelta_minutes. by rewrite numeric_date_after.
Qed.

Lemma create_refresh_token_run (self : AuthService) (user_id : string) (w : world) :
  _create_refresh_token self user_id w =
    let claims : gmap string value :=
      <["jti" := VStr (token_urlsafe_at (rng_draws w))]>
        (<["type" := VStr "refresh"]>
          (<["iat" := VInt (utcnow_at (S (clock_reads w)) `div` 1000000)]>
            (<["exp" := VInt (utcnow_at (clock_reads w) `div` 1000000
                              + refresh_token_expire_days self * 86400)]>
              (<["sub" := VStr user_id]> ∅)))) in
    (Ok (Compact (jwt_algorithm self) claims
           (jws_sign (jwt_algorithm self) (jwt_secret self) claims)),
     World (S (S (clock_reads w))) (S (rng_draws w)) (attempts w)
       (trace w ++ [JwtEncode])).
Proof.
  unfold_auth. cbn [clock_reads rng_draws attempts trace].
  rewrite !fmap_insert, fmap_empty. cbn [numeric_date].
  unfold timedelta_days. by rewrite numeric_date_after.
Qed.


(** *** Issuance followed by validation *)

Lemma numeric_date_mono (t u : Z) : t ≤ u → t `div` 1000000 ≤ u `div` 1000000.
Proof. intros Hle. apply Z.div_le_mono; lia. Qed.

(** The validators on claim sets of the shape the service issues. *)
Lemma validate_claims_issued (claims : gmap string value) (iat exp now : Z)
    (sub : string) :
  claims !! "iat" = Some (VInt iat) →
  claims !! "nbf" = None →
  claims !! "exp" = Some (VInt exp) →
  claims !! "aud" = None →
  claims !! "sub" = Some (VStr sub) →
  (claims !! "jti" = None ∨ ∃ jti, claims !! "jti" = Some (VStr jti)) →
  validate_claims claims now =
    if decide (now < iat) then
      Raise (InvalidTokenError "The token is not yet valid (iat)")
    else if decide (exp ≤ now) then Raise ExpiredSignatureError
    else Ok ().
Proof.
  intros Hiat Hnbf Hexp Haud Hsub Hjti.
  unfold validate_claims, validate_iat, validate_nbf, validate_exp, validate_aud,
    validate_sub, validate_jti.
  rewrite Hiat, Hnbf, Hexp, Haud, Hsub. simpl. unfold mbind, result_bind.
  destruct (decide (now < iat)); [done|].
  destruct (decide (exp ≤ now)); [done|].
  by destruct Hjti as [->|[jti ->]].
Qed.

Lemma verify_access_token (self : AuthService) (user_id sch trace_id : string)
    (w_issue w : world) (access : token) :
  (_create_access_token self user_id w_issue).1 = Ok access →
  (verify_token self {| scheme := sch; credentials := access |} trace_id w).1 =
    if decide (utcnow_at (clock_reads w) `div` 1000000
               < utcnow_at (S (clock_reads w_issue)) `div` 1000000)
    then Raise no_JWTError
    else if decide (utcnow_at (clock_reads w_issue) `div` 1000000
                    + access_token_expire_minutes self * 60
                    ≤ utcnow_at (clock_reads w) `div` 1000000)
    then Raise (AuthorizationError "Token has expired" "AUTH_003" trace_id)
    else Ok (VStr user_id).
Proof.
  rewrite create_access_token_run. cbn [fst]. intros [= <-].
  rewrite verify_token_genuine.
  erewrite (validate_claims_issued _ _ _ _ user_id);
    [|by simplify_map_eq..|left; by simplify_map_eq].
  destruct (decide _); [done|]. destruct (decide _); [done|].
  rewrite decide_False; [by simplify_map_eq|].
  simplify_map_eq. by intros [].
Qed.

Lemma verify_refresh_token (self : AuthService) (user_id sch trace_id : string)
    (w_issue w : world) (refresh : token) :
  (_create_refresh_token self user_id w_issue).1 = Ok refresh →
  (verify_token self {| scheme := sch; credentials := refresh |} trace_id w).1 =
    if decide (utcnow_at (clock_reads w) `div` 1000000
               < utcnow_at (S (clock_reads w_issue)) `div` 1000000)
    then Raise no_JWTError
    else if decide (utcnow_at (clock_reads w_issue) `div` 1000000
                    + refresh_token_expire_days self * 86400
                    ≤ utcnow_at (clock_reads w) `div` 1000000)
    then Raise (AuthorizationError "Token has expired" "AUTH_003" trace_id)
    else Raise no_JWTError.
Proof.
  rewrite create_refresh_token_run. cbn [fst]. intros [= <-].
  rewrite verify_token_genuine.
  erewrite (validate_claims_issued _ _ _ _ user_id);
    [|by simplify_map_eq..|right; eexists; by simplify_map_eq].
  destruct (decide _); [done|]. destruct (decide _); [done|].
  rewrite decide_True; [done|]. by simplify_map_eq.
Qed.

(** C5, as the code has it.  [verify_token] has no expected-kind argument: the
    kind it accepts is fixed to [access].  A freshly issued access token,
    validated not before the second of its [iat] and before the second of its
    [exp], is accepted and yields the subject it was issued for. *)
Theorem issued_tokens_verify (self : AuthService) (user_id sch trace_id : string)
    (w_access w : world) :
  utcnow_at (S (clock_reads w_access)) `div` 1000000
    ≤ utcnow_at (clock_reads w) `div` 1000000 →
  utcnow_at (clock_reads w) `div` 1000000
    < utcnow_at (clock_reads w_access) `div` 1000000
      + access_token_expire_minutes self * 60 →
  ∃ access : token,
    (_create_access_token self user_id w_access).1 = Ok access
    ∧ (verify_token self {| scheme := sch; credentials := access |} trace_id w).1
        = Ok (VStr user_id).
Proof.
  intros Hissued Hlive.
  destruct (_create_access_token self user_id w_access) as [r wa] eqn:Ha.
  pose proof (verify_access_token self user_id sch trace_id w_access w) as Hv.
  rewrite Ha in Hv. rewrite create_access_token_run in Ha.
  injection Ha as <- <-.
  eexists. split; [reflexivity|].
  rewrite (Hv _ eq_refl). rewrite decide_False by lia. by rewrite decide_False by lia.
Qed.

(** No validation of an issued access token answers wrong type. *)
Lemma verify_access_token_not_wrong_type (self : AuthService)
    (user_id sch trace_id : string) (w_issue w : world) (access : token) :
  (_create_access_token self user_id w_issue).1 = Ok access →
  (verify_token self {| scheme := sch; credentials := access |} trace_id w).1
    ≠ Raise (AuthorizationError "Invalid token type" "AUTH_002" trace_id).
Proof.
  intros Hissue. rewrite (verify_access_token _ _ _ _ _ _ _ Hissue).
  by repeat destruct (decide _).
Qed.

Lemma validate_claims_live (claims : gmap string value) (exp now : Z) :
  claims !! "exp" = Some (VInt exp) →
  now < exp →
  validate_claims claims now ≠ Raise ExpiredSignatureError.
Proof.
  intros Hexp Hlive Hexpired.
  apply validate_claims_expired_inv in Hexpired as (v & e & Hv & He & Hpast).
  rewrite Hexp in Hv. injection Hv as <-. simpl in He. injection He as <-. lia.
Qed.

(** C10.  A token that carries the signature of its claims, is not expired and
    has the type [access] but no [sub] claim makes [payload["sub"]] raise
    [KeyError] inside the [try] block.  The [KeyError] does not leave
    [verify_token]: it reaches the clause [except jwt.JWTError], whose
    evaluation raises [AttributeError], and that is what leaves.  The answer
    is none of the authorization errors.  Such tokens exist. *)
Theorem verify_token_missing_sub (self : AuthService) (sch trace_id : string)
    (w : world) :
  let answer (claims : gmap string value) :=
    (verify_token self
       {| scheme := sch;
          credentials :=
            Compact (jwt_algorithm self) claims
              (jws_sign (jwt_algorithm self) (jwt_secret self) claims) |}
       trace_id w).1 in
  let live_access_without_sub (claims : gmap string value) :=
    (∃ exp, claims !! "exp" = Some (VInt exp)
            ∧ utcnow_at (clock_reads w) `div` 1000000 < exp)
    ∧ claims !! "type" = Some (VStr "access")
    ∧ claims !! "sub" = None in
  (∀ claims, live_access_without_sub claims →
     answer claims = Raise no_JWTError
     ∧ answer claims ≠ Raise (KeyError "sub")
     ∧ ∀ message code, answer claims ≠ Raise (AuthorizationError message code trace_id))
  ∧ ∃ claims, live_access_without_sub claims.
Proof.
  intros answer live. split.
  - intros claims ((exp & Hexp & Hlive) & Htype & Hsub).
    assert (answer claims = Raise no_JWTError) as ->; [|done].
    unfold answer. rewrite verify_token_genuine.
    pose proof (validate_claims_live claims exp _ Hexp Hlive) as Hnot.
    destruct (validate_claims _ _) as [[]|e].
    + rewrite decide_False by (by rewrite Htype; intros []). by rewrite Hsub.
    + by destruct e.
  - exists (<["type" := VStr "access"]>
              (<["exp" := VInt (utcnow_at (clock_reads w) `div` 1000000 + 1)]> ∅)).
    split; [eexists; split; [by simplify_map_eq|lia]|].
    by simplify_map_eq.
Qed.

(** *** The decorated endpoint *)

(** Whatever [authenticate_user] does, it starts by fetching the user. *)
Lemma authenticate_user_trace (self : AuthService)
    (email password trace_id : string) (w : world) :
  ∃ evs : list event,
    trace (authenticate_user self email password trace_id w).2
      = trace w ++ GetByEmail email :: evs.
Proof.
  unfold_auth. cbn [clock_reads rng_draws attempts trace].
  destruct (User_get_by_email email) as [[user|]|e].
  - destruct (bcrypt_checkpw password (User.password_hash user)) as [[|]|e].
    + cbn [negb trace snd]. rewrite <- !app_assoc. by eexists.
    + cbn [negb trace snd]. rewrite <- !app_assoc. by eexists.
    + destruct e; cbn [trace snd]; rewrite <- ?app_assoc; by eexists.
  - cbn [trace snd]. by eexists.
  - destruct e; cbn [trace snd]; rewrite <- ?app_assoc; by eexists.
Qed.

Lemma verify_token_untouched (self : AuthService)
    (creds : HTTPAuthorizationCredentials) (trace_id : string) (w : world) :
  trace (verify_token self creds trace_id w).2 = trace w ++ [JwtDecode]
  ∧ attempts (verify_token self creds trace_id w).2 = attempts w.
Proof.
  unfold_auth. cbn [clock_reads rng_draws attempts trace].
  destruct (credentials creds) as [raw|alg claims signature]; [done|].
  destruct (decide _); [|done]. destruct (decide _); [|done].
  cbn [clock_reads rng_draws attempts trace].
  destruct (validate_claims _ _) as [[]|failure].
  - destruct (decide _); [done|]. by destruct (claims !! "sub").
  - by destruct failure.
Qed.

Lemma login_endpoint_body_trace (kwargs : login_kwargs) (w : world) :
  ∃ evs : list event, trace (login_endpoint_body kwargs w).2 = trace w ++ evs.
Proof.
  unfold login_endpoint_body, mbind, M_bind.
  destruct (kw_trace_id kwargs) as [t|]; [destruct (decide (t = ""))|].
  - exists []. cbn. by rewrite app_nil_r.
  - unfold mret, M_ret.
    destruct (authenticate_user_trace AuthService_init (kw_email kwargs)
                (kw_password kwargs) t w) as [evs Hevs].
    eexists. exact Hevs.
  - exists []. cbn. by rewrite app_nil_r.
Qed.

(** C8.  A call of [login_endpoint] enters the rate limiter before anything
    else.  When the limiter denies the call, the call ends there with
    [HTTPException] 429: the user store is not asked, no password is checked,
    no token is encoded, nothing is logged.  [verify_token] never enters the
    rate limiter and leaves its table as it was. *)
Theorem login_endpoint_limits_first (kwargs : login_kwargs) (w : world) :
  let key := default "unknown" (kw_client_ip kwargs) in
  let limited := check_rate_limit rate_limiter key w in
  (∃ evs : list event,
     trace (login_endpoint kwargs w).2 = trace w ++ CheckRateLimit key :: evs)
  ∧ (limited.1 = Ok false →
       login_endpoint kwargs w
         = (Raise (HTTPException 429 "Rate limit exceeded"), limited.2)
       ∧ trace (login_endpoint kwargs w).2 = trace w ++ [CheckRateLimit key])
  ∧ (limited.1 = Ok true →
       login_endpoint kwargs w = login_endpoint_body kwargs limited.2)
  ∧ (∀ (self : AuthService) (creds : HTTPAuthorizationCredentials)
       (trace_id : string) (w' : world),
       trace (verify_token self creds trace_id w').2 = trace w' ++ [JwtDecode]
       ∧ attempts (verify_token self creds trace_id w').2 = attempts w').
Proof.
  intros key limited.
  assert (login_endpoint kwargs w =
          match limited with
          | (Ok allowed, w1) =>
              (if negb allowed
               then raise (HTTPException 429 "Rate limit exceeded")
               else login_endpoint_body kwargs) w1
          | (Raise e, w1) => (Raise e, w1)
          end) as Hcall by reflexivity.
  pose proof (check_rate_limit_run rate_limiter key w) as Hrun. cbv zeta in Hrun.
  fold limited in Hrun. rewrite Hcall.
  destruct (decide _) as [Hfull|Hroom]; rewrite Hrun; cbn [fst snd negb trace].
  - split; [by exists []|]. split; [done|]. split; [done|].
    apply verify_token_untouched.
  - split; [|split; [done|split; [done|apply verify_token_untouched]]].
    match goal with |- context [login_endpoint_body kwargs ?w1] =>
      destruct (login_endpoint_body_trace kwargs w1) as [evs Hevs]
    end.
    rewrite Hevs. cbn [trace]. rewrite <- app_assoc. by eexists.
Qed.

(** ** Further properties of the rate limiter *)

Lemma check_rate_limit_each_cons (self : RateLimiter) (key : string)
    (keys : list string) (w : world) :
  ∃ b : bool,
    (check_rate_limit self key w).1 = Ok b
    ∧ check_rate_limit_each self (key :: keys) w =
        match check_rate_limit_each self keys (check_rate_limit self key w).2 with
        | (Ok bs, w2) => (Ok (b :: bs), w2)
        | (Raise e, w2) => (Raise e, w2)
        end.
Proof.
  pose proof (check_rate_limit_run self key w) as Hrun. cbv zeta in Hrun.
  simpl. unfold mbind at 1. unfold M_bind at 1.
  destruct (decide _); rewrite Hrun; cbn [fst snd]; eexists; (split; [done|]);
    unfold mbind, M_bind;
    match goal with |- context [check_rate_limit_each _ _ ?w1] =>
      by destruct (check_rate_limit_each self keys w1) as [[bs|e] w2]
    end.
Qed.

Lemma check_rate_limit_each_world (self : RateLimiter) (key : string)
    (keys : list string) (w : world) :
  (check_rate_limit_each self (key :: keys) w).2
    = (check_rate_limit_each self keys (check_rate_limit self key w).2).2.
Proof.
  destruct (check_rate_limit_each_cons self key keys w) as (b & _ & ->).
  by destruct (check_rate_limit_each self keys _) as [[bs|e] w2].
Qed.

Lemma check_rate_limit_attempts (self : RateLimiter) (key : string) (w : world) :
  ∃ l : list datetime,
    attempts (check_rate_limit self key w).2 = <[key := l]> (attempts w).
Proof.
  pose proof (check_rate_limit_run self key w) as Hrun. cbv zeta in Hrun.
  destruct (decide _); rewrite Hrun; by eexists.
Qed.

(** X2.  The table starts within bounds and every call keeps it there: no key
    ever holds more timestamps than [max_attempts] (none when [max_attempts]
    is negative), whatever keys are checked and whatever the clock reads. *)
Theorem check_rate_limit_keeps_bound (self : RateLimiter) :
  bounded self world0
  ∧ ∀ (history : list string) (w : world),
      bounded self w → bounded self (check_rate_limit_each self history w).2.
Proof.
  split; [apply world0_bounded|].
  intros history w Hb. by apply check_rate_limit_each_bounded.
Qed.

(** X3.  Calls for other keys leave a key's entry of the table exactly as it
    was: neither changed nor created. *)
Theorem check_rate_limit_other_keys (self : RateLimiter) (history : list string)
    (key : string) (w : world) :
  key ∉ history →
  attempts (check_rate_limit_each self history w).2 !! key = attempts w !! key.
Proof.
  revert w. induction history as [|key' history IH]; intros w Hnot; [done|].
  apply not_elem_of_cons in Hnot as [Hne Hnot].
  rewrite check_rate_limit_each_world, IH by done.
  destruct (check_rate_limit_attempts self key' w) as [l ->].
  by rewrite lookup_insert_ne.
Qed.

(** X4.  The table never forgets a key: once a key is in the table, or has
    been checked, it stays in the table through every later call, also when
    the call was denied and also when all its timestamps have been pruned. *)
Theorem check_rate_limit_never_evicts (self : RateLimiter) (history : list string)
    (key : string) (w : world) :
  key ∈ history ∨ key ∈ dom (attempts w) →
  key ∈ dom (attempts (check_rate_limit_each self history w).2).
Proof.
  revert w. induction history as [|key' history IH]; intros w Hin.
  - destruct Hin as [Hin|Hin]; [by apply elem_of_nil in Hin|done].
  - rewrite check_rate_limit_each_world. apply IH.
    destruct (check_rate_limit_attempts self key' w) as [l ->].
    rewrite dom_insert_L.
    destruct Hin as [Hin|Hin]; [|set_solver].
    apply elem_of_cons in Hin as [->|Hin]; [set_solver|by left].
Qed.

Lemma filter_filter_implied {A} (P Q : A → Prop)
    `{∀ x, Decision (P x)} `{∀ x, Decision (Q x)} (l : list A) :
  (∀ x, P x → Q x) → filter P (filter Q l) = filter P l.
Proof.
  intros Himp. induction l as [|x l IH]; [done|].
  destruct (decide (Q x)) as [HQ|HQ].
  - rewrite (filter_cons_True Q) by done.
    destruct (decide (P x)) as [HP|HP].
    + rewrite !(filter_cons_True P) by done. by f_equal.
    + by rewrite !(filter_cons_False P) by done.
  - rewrite (filter_cons_False Q) by done.
    rewrite (filter_cons_False P); [done|]. intros HP. by apply HQ, Himp.
Qed.

Lemma granted_cons (b : bool) (bs : list bool) :
  granted (b :: bs) = ((if b then 1 else 0) + granted bs)%nat.
Proof. unfold granted. by destruct b. Qed.

(** Within a run whose readings lie in one window, the timestamps that
    outlast the run take up room for good. *)
Lemma check_rate_limit_times_granted (self : RateLimiter) (key : string)
    (first n m : nat) :
  in_one_window self first n →
  ∀ w : world,
    (first ≤ clock_reads w)%nat → (clock_reads w + m ≤ first + n)%nat →
    ∃ bs : list bool,
      (check_rate_limit_times self key m w).1 = Ok bs
      ∧ Z.of_nat (granted bs)
          ≤ Z.max 0 (max_attempts self
                     - Z.of_nat (length (filter (outlasts self first n)
                                           (recorded w key)))).
Proof.
  intros Hwin. induction m as [|m IH]; intros w Hlo Hhi.
  { exists []. split; [done|]. unfold granted. simpl. lia. }
  pose proof (check_rate_limit_run self key w) as Hrun. cbv zeta in Hrun.
  set (now := utcnow_at (clock_reads w)) in *.
  set (l := kept self now (recorded w key)) in *.
  assert (filter (outlasts self first n) l
          = filter (outlasts self first n) (recorded w key)) as Hsame.
  { apply filter_filter_implied. intros a Ha. unfold outlasts in Ha.
    rewrite Forall_forall in Ha. apply (Ha (clock_reads w)).
    apply elem_of_seq. lia. }
  pose proof (length_filter (outlasts self first n) l) as Hle.
  destruct (decide _) as [Hfull|Hroom];
    rewrite (check_rate_limit_times_S _ _ _ _ _ _ Hrun);
    match goal with |- context [check_rate_limit_times _ _ _ ?w1] =>
      destruct (IH w1) as (bs & Hbs & Hcount); [simpl; lia|simpl; lia|];
      destruct (check_rate_limit_times self key m w1) as [r w2]
    end;
    cbn [fst] in Hbs; subst r; eexists; (split; [reflexivity|]);
    rewrite granted_cons; rewrite recorded_insert in Hcount.
  - rewrite Hsame in Hcount. lia.
  - rewrite filter_app, length_app, Hsame in Hcount.
    rewrite filter_cons_True in Hcount.
    2:{ unfold outlasts. apply Forall_forall. intros j Hj.
        apply elem_of_seq in Hj. apply Hwin; lia. }
    rewrite Hsame in Hle. cbn [filter length] in Hcount.
    rewrite filter_nil in Hcount. cbn [length] in Hcount. lia.
Qed.

(** X1.  Whatever the table holds before, of any number of calls made one
    after the other for one key with their clock readings in one window, at
    most [max_attempts] return [True] (none when [max_attempts] is negative). *)
Theorem check_rate_limit_window_bound (self : RateLimiter) (key : string)
    (n : nat) (w : world) :
  in_one_window self (clock_reads w) n →
  ∃ bs : list bool,
    (check_rate_limit_times self key n w).1 = Ok bs
    ∧ length bs = n
    ∧ Z.of_nat (granted bs) ≤ Z.max 0 (max_attempts self).
Proof.
  intros Hwin.
  destruct (check_rate_limit_times_granted self key (clock_reads w) n n Hwin w)
    as (bs & Hbs & Hcount); [lia|lia|].
  exists bs. split; [done|]. split; [|lia].
  clear Hcount Hwin. revert w bs Hbs. induction n as [|n IH]; intros w bs Hbs.
  - by injection Hbs as <-.
  - pose proof (check_rate_limit_run self key w) as Hrun. cbv zeta in Hrun.
    destruct (decide _);
      rewrite (check_rate_limit_times_S _ _ _ _ _ _ Hrun) in Hbs;
      match type of Hbs with context [check_rate_limit_times _ _ _ ?w1] =>
        specialize (IH w1);
        destruct (check_rate_limit_times self key n w1) as [[bs'|e] w2]
      end; cbn [fst] in Hbs; try done;
      injection Hbs as <-; cbn [length]; f_equal; by apply IH.
Qed.

(** X5.  A limiter configured with [max_attempts ≤ 0] denies every call and
    never records a timestamp: what a key holds afterwards is part of what it
    held before. *)
Theorem check_rate_limit_closed (self : RateLimiter) (key : string) (n : nat)
    (w : world) :
  max_attempts self ≤ 0 →
  (check_rate_limit_times self key n w).1 = Ok (replicate n false)
  ∧ ∀ a : datetime,
      a ∈ recorded (check_rate_limit_times self key n w).2 key →
      a ∈ recorded w key.
Proof.
  intros Hmax. revert w. induction n as [|n IH]; intros w; [done|].
  pose proof (check_rate_limit_run self key w) as Hrun. cbv zeta in Hrun.
  rewrite decide_True in Hrun by lia.
  rewrite (check_rate_limit_times_S _ _ _ _ _ _ Hrun).
  match goal with |- context [check_rate_limit_times _ _ _ ?w1] =>
    destruct (IH w1) as [Hres Hsub];
    destruct (check_rate_limit_times self key n w1) as [r w2]
  end.
  cbn [fst snd] in *. subst r. split; [done|].
  intros a Ha. apply Hsub in Ha. rewrite recorded_insert in Ha.
  unfold kept in Ha. by apply list_elem_of_filter in Ha as [_ Ha].
Qed.

(** X6.  A limiter configured with [window ≤ 0] and room for at least one
    attempt never denies, as long as the clock does not run backwards: each
    call prunes every earlier timestamp. *)
Theorem check_rate_limit_open (self : RateLimiter) (key : string) (n : nat)
    (w : world) :
  window self ≤ 0 →
  1 ≤ max_attempts self →
  clock_monotone →
  (∀ a : datetime, a ∈ recorded w key → a ≤ utcnow_at (clock_reads w)) →
  (check_rate_limit_times self key n w).1 = Ok (replicate n true).
Proof.
  intros Hwindow Hmax Hclock. revert w.
  induction n as [|n IH]; intros w Hpast; [done|].
  pose proof (check_rate_limit_run self key w) as Hrun. cbv zeta in Hrun.
  unfold kept in Hrun. rewrite filter_drops_all in Hrun.
  2:{ intros a Ha. specialize (Hpast a Ha). unfold timedelta_seconds. lia. }
  cbn [length app] in Hrun. rewrite decide_False in Hrun by lia.
  rewrite (check_rate_limit_times_S _ _ _ _ _ _ Hrun).
  match goal with |- context [check_rate_limit_times _ _ _ ?w1] =>
    specialize (IH w1);
    destruct (check_rate_limit_times self key n w1) as [r w2]
  end.
  rewrite recorded_insert in IH. cbn [clock_reads fst] in IH.
  rewrite IH; [done|].
  intros a Ha. apply list_elem_of_singleton in Ha as ->. apply Hclock. lia.
Qed.

Lemma StronglySorted_filter {A} (R : relation A) (P : A → Prop)
    `{∀ x, Decision (P x)} (l : list A) :
  StronglySorted R l → StronglySorted R (filter P l).
Proof.
  induction 1 as [|x l Hl IH Hx]; [constructor|].
  destruct (decide (P x)).
  - rewrite filter_cons_True by done. constructor; [done|].
    apply Forall_forall. intros y Hy. apply list_elem_of_filter in Hy as [_ Hy].
    rewrite Forall_forall in Hx. by apply Hx.
  - by rewrite filter_cons_False.
Qed.

Lemma check_rate_limit_chronological (self : RateLimiter) (key : string) (w : world) :
  clock_monotone → chronological w → chronological (check_rate_limit self key w).2.
Proof.
  intros Hclock Hw key'.
  pose proof (check_rate_limit_run self key w) as Hrun. cbv zeta in Hrun.
  pose proof (Hclock (clock_reads w) (S (clock_reads w))) as Hnext.
  destruct (Hw key') as [Hsorted' Hpast'].
  destruct (Hw key) as [Hsorted Hpast].
  assert (StronglySorted Z.le (kept self (utcnow_at (clock_reads w)) (recorded w key)))
    as Hkept by by apply StronglySorted_filter.
  assert (∀ a, a ∈ kept self (utcnow_at (clock_reads w)) (recorded w key) →
               a ≤ utcnow_at (clock_reads w)) as Hkept_past.
  { intros a Ha. apply list_elem_of_filter in Ha as [_ Ha]. by apply Hpast. }
  destruct (decide (key = key')) as [<-|Hne].
  - destruct (decide _); rewrite Hrun; cbn [snd clock_reads];
      rewrite recorded_insert.
    + split; [done|]. intros a Ha. apply Hkept_past in Ha. lia.
    + split.
      * apply StronglySorted_app_2; [|done|repeat constructor].
        intros a b Ha Hb. apply list_elem_of_singleton in Hb as ->.
        by apply Hkept_past.
      * intros a Ha. apply elem_of_app in Ha as [Ha|Ha].
        -- apply Hkept_past in Ha. lia.
        -- apply list_elem_of_singleton in Ha as ->. lia.
  - destruct (decide _); rewrite Hrun; cbn [snd clock_reads];
      rewrite recorded_insert_ne by done; (split; [done|]);
      intros a Ha; apply Hpast' in Ha; lia.
Qed.

(** X7.  Under a clock that never runs backwards, every key's timestamps are
    kept in ascending order, the oldest first, and none of them is later than
    the clock: this holds at the start and after every sequence of calls. *)
Theorem check_rate_limit_keeps_order (self : RateLimiter) (history : list string) :
  clock_monotone →
  chronological (check_rate_limit_each self history world0).2.
Proof.
  intros Hclock.
  assert (chronological world0) as Hstart.
  { intros key. unfold recorded. simpl. rewrite lookup_empty. simpl.
    split; [constructor|]. intros a Ha. by apply elem_of_nil in Ha. }
  revert Hstart. generalize world0. induction history as [|key history IH];
    intros w Hw; [done|].
  rewrite check_rate_limit_each_world. apply IH.
  by apply check_rate_limit_chronological.
Qed.

(** X8.  While a key's window stays full, calls for it are denied and change
    nothing for it: when the key holds at least [max_attempts] timestamps and
    each of them outlasts the coming readings of the clock, all the coming
    calls return [False] and the key holds the same timestamps afterwards.
    Denied calls are not counted and do not prolong the lock. *)
Theorem check_rate_limit_lockout (self : RateLimiter) (key : string) (n : nat)
    (w : world) :
  max_attempts self ≤ Z.of_nat (length (recorded w key)) →
  (∀ a : datetime, a ∈ recorded w key → outlasts self (clock_reads w) n a) →
  (check_rate_limit_times self key n w).1 = Ok (replicate n false)
  ∧ recorded (check_rate_limit_times self key n w).2 key = recorded w key.
Proof.
  revert w. induction n as [|n IH]; intros w Hfull Hlast; [done|].
  pose proof (check_rate_limit_run self key w) as Hrun. cbv zeta in Hrun.
  unfold kept in Hrun. rewrite filter_keeps_all in Hrun.
  2:{ intros a Ha. specialize (Hlast a Ha). unfold outlasts in Hlast.
      rewrite Forall_forall in Hlast. apply (Hlast (clock_reads w)).
      apply elem_of_seq. lia. }
  rewrite decide_True in Hrun by done.
  rewrite (check_rate_limit_times_S _ _ _ _ _ _ Hrun).
  match goal with |- context [check_rate_limit_times _ _ _ ?w1] =>
    destruct (IH w1) as [Hres Hsame];
    [by rewrite recorded_insert| |
     destruct (check_rate_limit_times self key n w1) as [r w2]]
  end.
  - rewrite recorded_insert. cbn [clock_reads]. intros a Ha.
    specialize (Hlast a Ha). unfold outlasts in *.
    rewrite Forall_forall in *. intros j Hj. apply Hlast.
    apply elem_of_seq in Hj. apply elem_of_seq. lia.
  - cbn [fst snd] in *. subst r. rewrite recorded_insert in Hsame. done.
Qed.

(** ** Further properties of the login *)

(** X9.  What the two failing logins do differs, although what they raise does
    not.  For an unknown email the user store is asked and nothing else
    happens: [bcrypt.checkpw] is not called and nothing is logged.  For a
    known email with a wrong password [bcrypt.checkpw] is called once and two
    records are logged: the warning of the failed authentication with the user
    id, then, because the [AuthenticationError] is raised inside the [try]
    block and [except Exception] catches it before re-raising, the error
    record for an unexpected error. *)
Theorem authenticate_user_failure_effects (self : AuthService)
    (email_missing password_any email_known password_wrong trace_id : string)
    (user : User.t) (w : world) :
  User_get_by_email email_missing = Ok None →
  User_get_by_email email_known = Ok (Some user) →
  bcrypt_checkpw password_wrong (User.password_hash user) = Ok false →
  trace (authenticate_user self email_missing password_any trace_id w).2
    = trace w ++ [GetByEmail email_missing]
  ∧ trace (authenticate_user self email_known password_wrong trace_id w).2
    = trace w ++
        [GetByEmail email_known; Checkpw;
         Log WARNING "Authentication failed"
           [("trace_id", trace_id); ("user_id", User.id user);
            ("error_type", "invalid_credentials")];
         Log ERROR "Unexpected error during authentication"
           [("trace_id", trace_id); ("error", invalid_credentials_message)]].
Proof.
  intros Hmissing Hknown Hwrong.
  unfold_auth. cbn [clock_reads rng_draws attempts trace].
  rewrite Hmissing, Hknown. cbn [trace snd]. rewrite Hwrong.
  cbn [negb trace snd exn_str]. rewrite <- !app_assoc. done.
Qed.

(** X10.  [authenticate_user] never raises [UserNotFoundException], whatever
    the user store and [bcrypt] do: the [USER_001] error of
    [_get_user_by_email] does not leave the login. *)
Theorem authenticate_user_hides_user_not_found (self : AuthService)
    (email password trace_id : string) (w : world) :
  ∀ message code trace_id' : string,
    (authenticate_user self email password trace_id w).1
      ≠ Raise (UserNotFoundException message code trace_id').
Proof.
  intros message code trace_id'.
  unfold_auth. cbn [clock_reads rng_draws attempts trace].
  destruct (User_get_by_email email) as [[user|]|e].
  - destruct (bcrypt_checkpw password (User.password_hash user)) as [[|]|e];
      [done|done|by destruct e].
  - done.
  - by destruct e.
Qed.

(** X11.  A failure of a collaborator passes through the login unchanged.
    When the user store, or [bcrypt.checkpw] for a stored user, raises an
    exception below [Exception] that is none of the module's own, the login
    raises that same exception after logging one error record with the trace
    id and the text of the exception; no token is encoded. *)
Theorem authenticate_user_passes_failures (self : AuthService)
    (email password trace_id description : string) (w : world) :
  let failure := OtherError description in
  let unexpected :=
    Log ERROR "Unexpected error during authentication"
      [("trace_id", trace_id); ("error", description)] in
  (User_get_by_email email = Raise failure →
     (authenticate_user self email password trace_id w).1 = Raise failure
     ∧ trace (authenticate_user self email password trace_id w).2
       = trace w ++ [GetByEmail email; unexpected])
  ∧ (∀ user : User.t,
       User_get_by_email email = Ok (Some user) →
       bcrypt_checkpw password (User.password_hash user) = Raise failure →
       (authenticate_user self email password trace_id w).1 = Raise failure
       ∧ trace (authenticate_user self email password trace_id w).2
         = trace w ++ [GetByEmail email; Checkpw; unexpected]).
Proof.
  intros failure unexpected. subst failure unexpected. split.
  - intros Hstore. unfold_auth. cbn [clock_reads rng_draws attempts trace].
    rewrite Hstore. cbn [fst snd trace exn_str]. by rewrite <- ?app_assoc.
  - intros user Hstore Hbcrypt. unfold_auth.
    cbn [clock_reads rng_draws attempts trace].
    rewrite Hstore. cbn [snd trace]. rewrite Hbcrypt.
    cbn [fst snd trace exn_str]. by rewrite <- ?app_assoc.
Qed.

(** The login never touches the rate limiter's table. *)
Lemma authenticate_user_attempts (self : AuthService)
    (email password trace_id : string) (w : world) :
  attempts (authenticate_user self email password trace_id w).2 = attempts w.
Proof.
  unfold_auth. cbn [clock_reads rng_draws attempts trace].
  destruct (User_get_by_email email) as [[user|]|e].
  - destruct (bcrypt_checkpw password (User.password_hash user)) as [[|]|e];
      [done|done|by destruct e].
  - done.
  - by destruct e.
Qed.

(** X12.  The password reaches nothing but [bcrypt.checkpw]: two logins that
    differ only in the password, and whose passwords [bcrypt.checkpw] answers
    alike for the stored hash, have the same result and leave the same world,
    log records included. *)
Theorem authenticate_user_password_only_checked (self : AuthService)
    (email password1 password2 trace_id : string) (w : world) :
  (∀ user : User.t,
     User_get_by_email email = Ok (Some user) →
     bcrypt_checkpw password1 (User.password_hash user)
       = bcrypt_checkpw password2 (User.password_hash user)) →
  authenticate_user self email password1 trace_id w
    = authenticate_user self email password2 trace_id w.
Proof.
  intros Hsame. unfold_auth. cbn [clock_reads rng_draws attempts trace].
  destruct (User_get_by_email email) as [[user|]|e]; [|done|done].
  by rewrite (Hsame user eq_refl).
Qed.

(** Who is given a subject holds a token of type [access]. *)
Lemma verify_token_ok_access (self : AuthService)
    (creds : HTTPAuthorizationCredentials) (trace_id : string) (w : world)
    (user_id : value) :
  (verify_token self creds trace_id w).1 = Ok user_id →
  ∃ claims : gmap string value,
    credentials creds
      = Compact (jwt_algorithm self) claims
          (jws_sign (jwt_algorithm self) (jwt_secret self) claims)
    ∧ validate_claims claims (utcnow_at (clock_reads w) `div` 1000000) = Ok ()
    ∧ claims !! "type" = Some (VStr "access")
    ∧ claims !! "sub" = Some user_id.
Proof.
  destruct creds as [sch [raw|alg claims signature]].
  { unfold_auth. by simpl. }
  destruct (decide (alg = jwt_algorithm self
                    ∧ signature = jws_sign alg (jwt_secret self) claims))
    as [[-> ->]|Hforged].
  - rewrite verify_token_genuine.
    destruct (validate_claims _ _) as [[]|failure] eqn:Hvalid;
      [|by destruct failure].
    destruct (decide _) as [|Htype]; [done|].
    destruct (claims !! "sub") as [v|] eqn:Hsub; [|done].
    intros [= <-]. exists claims. split; [done|]. split; [done|].
    split; [|done]. by destruct (decide (claims !! "type" = Some (VStr "access"))).
  - unfold_auth. cbn [clock_reads rng_draws attempts trace credentials].
    destruct (decide (alg ∈ _)) as [Halg|]; [|done].
    destruct (decide (signature = _)) as [Hsig|]; [|done].
    apply list_elem_of_singleton in Halg. by destruct Hforged.
Qed.

(** X13.  A login with the stored password succeeds, and what it returns
    works: the envelope carries the stored id, email and name, no error, the
    marker [bearer] and the caller's trace id; its access token, presented to
    [verify_token] not before the second of its [iat] and before the second
    of its [exp], yields the user's id; its refresh token never yields a
    subject, whenever it is presented.  The login reads the clock five times,
    draws one random string and leaves the limiter's table alone. *)
Theorem authenticate_user_success (self : AuthService)
    (email password trace_id : string) (user : User.t) (w : world) :
  User_get_by_email email = Ok (Some user) →
  bcrypt_checkpw password (User.password_hash user) = Ok true →
  let login := authenticate_user self email password trace_id w in
  ∃ response : envelope,
    login.1 = Ok response
    ∧ error response = None
    ∧ data_user (data response)
      = {| summary_id := User.id user;
           summary_email := User.email user;
           summary_name := User.name user |}
    ∧ token_type (data response) = "bearer"
    ∧ meta_trace_id (meta response) = trace_id
    ∧ (∀ (sch trace_id' : string) (w' : world),
         utcnow_at (S (clock_reads w)) `div` 1000000
           ≤ utcnow_at (clock_reads w') `div` 1000000 →
         utcnow_at (clock_reads w') `div` 1000000
           < utcnow_at (clock_reads w) `div` 1000000
             + access_token_expire_minutes self * 60 →
         (verify_token self
            {| scheme := sch; credentials := access_token (data response) |}
            trace_id' w').1
           = Ok (VStr (User.id user)))
    ∧ (∀ (sch trace_id' : string) (w' : world) (subject : value),
         (verify_token self
            {| scheme := sch; credentials := refresh_token (data response) |}
            trace_id' w').1
           ≠ Ok subject)
    ∧ clock_reads login.2 = (5 + clock_reads w)%nat
    ∧ rng_draws login.2 = S (rng_draws w)
    ∧ attempts login.2 = attempts w.
Proof.
  intros Hstore Hbcrypt login. subst login.
  unfold authenticate_user, try_except, _get_user_by_email, _verify_password.
  unfold_M. cbn [clock_reads rng_draws attempts trace].
  rewrite Hstore. cbn [trace snd]. rewrite Hbcrypt. cbn [negb].
  rewrite create_access_token_run. cbv zeta. cbn [clock_reads rng_draws attempts trace].
  rewrite create_refresh_token_run. cbv zeta. cbn [clock_reads rng_draws attempts trace].
  eexists. split; [reflexivity|].
  cbn [error data data_user token_type meta meta_trace_id access_token
       refresh_token fst snd clock_reads rng_draws attempts].
  do 4 (split; [done|]). split; [|split; [|done]].
  - intros sch trace_id' w' Hissued Hlive.
    rewrite (verify_access_token self (User.id user) sch trace_id' w w').
    2:{ by rewrite create_access_token_run. }
    rewrite decide_False by lia. by rewrite decide_False by lia.
  - intros sch trace_id' w' subject.
    rewrite (verify_refresh_token self (User.id user) sch trace_id'
               (World (S (S (clock_reads w))) (rng_draws w) (attempts w) (trace w)) w').
    2:{ by rewrite create_refresh_token_run. }
    by repeat destruct (decide _).
Qed.

(** X14.  Issued tokens die: an access token presented to [verify_token] a
    second or more after its lifetime has passed, and not before the clock
    reading of its [iat], is answered with [AUTH_003], and so is a refresh
    token after its own lifetime. *)
Theorem issued_tokens_expire (self : AuthService) (user_id sch trace_id : string)
    (w_issue w : world) :
  utcnow_at (S (clock_reads w_issue)) ≤ utcnow_at (clock_reads w) →
  let expired_answer :=
    Raise (AuthorizationError "Token has expired" "AUTH_003" trace_id) in
  (∀ access : token,
     (_create_access_token self user_id w_issue).1 = Ok access →
     utcnow_at (clock_reads w_issue)
       + timedelta_minutes (access_token_expire_minutes self)
       + timedelta_seconds 1 ≤ utcnow_at (clock_reads w) →
     (verify_token self {| scheme := sch; credentials := access |} trace_id w).1
       = expired_answer)
  ∧ (∀ refresh : token,
     (_create_refresh_token self user_id w_issue).1 = Ok refresh →
     utcnow_at (clock_reads w_issue)
       + timedelta_days (refresh_token_expire_days self)
       + timedelta_seconds 1 ≤ utcnow_at (clock_reads w) →
     (verify_token self {| scheme := sch; credentials := refresh |} trace_id w).1
       = expired_answer).
Proof.
  intros Hissued expired_answer. subst expired_answer.
  apply numeric_date_mono in Hissued. split.
  - intros access Hissue Hlate.
    rewrite (verify_access_token _ _ _ _ _ _ _ Hissue).
    apply numeric_date_mono in Hlate. unfold timedelta_minutes in Hlate.
    rewrite !numeric_date_after in Hlate.
    rewrite decide_False by lia. by rewrite decide_True by lia.
  - intros refresh Hissue Hlate.
    rewrite (verify_refresh_token _ _ _ _ _ _ _ Hissue).
    apply numeric_date_mono in Hlate. unfold timedelta_days in Hlate.
    rewrite !numeric_date_after in Hlate.
    rewrite decide_False by lia. by rewrite decide_True by lia.
Qed.

(** ** Further properties of the decorated endpoint *)

Lemma login_endpoint_body_attempts (kwargs : login_kwargs) (w : world) :
  attempts (login_endpoint_body kwargs w).2 = attempts w.
Proof.
  unfold login_endpoint_body, mbind, M_bind.
  destruct (kw_trace_id kwargs) as [t|]; [destruct (decide (t = ""))|]; [done| |done].
  unfold mret, M_ret. apply authenticate_user_attempts.
Qed.

Lemma login_endpoint_run (kwargs : login_kwargs) (w : world) :
  login_endpoint kwargs w =
    match check_rate_limit rate_limiter (default "unknown" (kw_client_ip kwargs)) w with
    | (Ok allowed, w1) =>
        (if negb allowed
         then raise (HTTPException 429 "Rate limit exceeded")
         else login_endpoint_body kwargs) w1
    | (Raise e, w1) => (Raise e, w1)
    end.
Proof. reflexivity. Qed.

(** X15.  A call the limiter lets through is counted whatever the login then
    does, success included: its timestamp is appended to the caller's key and
    is still there when [login_endpoint] returns or raises, and no other key
    of the table changes.  Callers that pass no [client_ip] keyword are all
    counted under the one key [unknown]. *)
Theorem login_endpoint_counts_every_call (kwargs : login_kwargs) (w : world) :
  let key := default "unknown" (kw_client_ip kwargs) in
  let now := utcnow_at (clock_reads w) in
  (check_rate_limit rate_limiter key w).1 = Ok true →
  recorded (login_endpoint kwargs w).2 key
    = kept rate_limiter now (recorded w key) ++ [now]
  ∧ ∀ key' : string, key' ≠ key →
      attempts (login_endpoint kwargs w).2 !! key' = attempts w !! key'.
Proof.
  intros key now. rewrite login_endpoint_run. fold key.
  pose proof (check_rate_limit_run rate_limiter key w) as Hrun. cbv zeta in Hrun.
  fold now in Hrun.
  destruct (decide _); rewrite Hrun; cbn [fst snd negb]; [done|].
  intros _. unfold recorded. rewrite login_endpoint_body_attempts.
  cbn [attempts]. split; [by rewrite lookup_insert_eq|].
  intros key' Hne. by rewrite lookup_insert_ne.
Qed.

(** X16.  [login_endpoint] called without a trace id, which is the default, or
    with an empty one, logs nobody in.  The module does not import [uuid], so
    the line that should draw a trace id raises [NameError]: the call ends
    with [NameError], or with 429 when the limiter denies it, and in both
    cases after the limiter has been entered and before the user store is
    asked. *)
Theorem login_endpoint_without_trace_id (kwargs : login_kwargs) (w : world) :
  kw_trace_id kwargs = None ∨ kw_trace_id kwargs = Some "" →
  let key := default "unknown" (kw_client_ip kwargs) in
  ∃ allowed : bool,
    (check_rate_limit rate_limiter key w).1 = Ok allowed
    ∧ (login_endpoint kwargs w).1
      = (if allowed
         then Raise (NameError "uuid")
         else Raise (HTTPException 429 "Rate limit exceeded"))
    ∧ trace (login_endpoint kwargs w).2 = trace w ++ [CheckRateLimit key].
Proof.
  intros Hnone key. rewrite login_endpoint_run. fold key.
  pose proof (check_rate_limit_run rate_limiter key w) as Hrun. cbv zeta in Hrun.
  destruct (decide (max_attempts rate_limiter ≤ _)); rewrite Hrun;
    cbn [fst snd negb]; [by exists false|].
  exists true. split; [done|].
  unfold login_endpoint_body, mbind, M_bind.
  by destruct Hnone as [->| ->].
Qed.

(** ** Further properties of token validation *)

(** X17.  [verify_token] returns a subject only for a token that names the
    service's algorithm, carries the signature of its claims under the
    service's key and has the type [access]; the subject it returns is the
    token's [sub] claim; and when the token's [exp] is an integer, the clock
    at validation is before it. *)
Theorem verify_token_sound (self : AuthService)
    (creds : HTTPAuthorizationCredentials) (trace_id : string) (w : world)
    (user_id : value) :
  (verify_token self creds trace_id w).1 = Ok user_id →
  ∃ claims : gmap string value,
    credentials creds
      = Compact (jwt_algorithm self) claims
          (jws_sign (jwt_algorithm self) (jwt_secret self) claims)
    ∧ claims !! "type" = Some (VStr "access")
    ∧ claims !! "sub" = Some user_id
    ∧ ∀ exp : Z, claims !! "exp" = Some (VInt exp) →
        utcnow_at (clock_reads w) `div` 1000000 < exp.
Proof.
  intros Hok.
  apply verify_token_ok_access in Hok as (claims & Hcreds & Hvalid & Htype & Hsub).
  exists claims. do 3 (split; [done|]).
  intros exp Hexp.
  destruct (decide (utcnow_at (clock_reads w) `div` 1000000 < exp)) as [|Hpast];
    [done|].
  unfold validate_claims in Hvalid.
  destruct (validate_iat claims _) as [[]|]; [|done].
  destruct (validate_nbf claims _) as [[]|]; [|done].
  unfold mbind at 1 2, result_bind at 1 2 in Hvalid.
  unfold validate_exp in Hvalid. rewrite Hexp in Hvalid. simpl in Hvalid.
  unfold mbind at 1 2, result_bind at 1 2 in Hvalid.
  by rewrite decide_True in Hvalid by lia.
Qed.

(** X18.  Whatever it is given, [verify_token] ends in one of three ways: it
    returns a subject, or raises [AuthorizationError] with the caller's trace
    id and the code [AUTH_003], or raises the [AttributeError] of the missing
    [jwt.JWTError].  The errors [AUTH_002] and [AUTH_004] and the [KeyError]
    for [sub] never leave it.  It reads the clock at most once, draws no
    randomness and writes no log record. *)
Theorem verify_token_outcomes (self : AuthService)
    (creds : HTTPAuthorizationCredentials) (trace_id : string) (w : world) :
  let answer := verify_token self creds trace_id w in
  ((∃ user_id : value, answer.1 = Ok user_id)
   ∨ answer.1 = Raise (AuthorizationError "Token has expired" "AUTH_003" trace_id)
   ∨ answer.1 = Raise no_JWTError)
  ∧ answer.1 ≠ Raise (AuthorizationError "Invalid token type" "AUTH_002" trace_id)
  ∧ answer.1 ≠ Raise (AuthorizationError "Invalid token" "AUTH_004" trace_id)
  ∧ answer.1 ≠ Raise (KeyError "sub")
  ∧ (clock_reads answer.2 ≤ S (clock_reads w))%nat
  ∧ rng_draws answer.2 = rng_draws w
  ∧ trace answer.2 = trace w ++ [JwtDecode].
Proof.
  intros answer. subst answer.
  unfold_auth. cbn [clock_reads rng_draws attempts trace].
  destruct (credentials creds) as [raw|alg claims signature];
    [cbn; by repeat split; try tauto; try lia|].
  destruct (decide _); [|cbn; by repeat split; try tauto; try lia].
  destruct (decide _); [|cbn; by repeat split; try tauto; try lia].
  cbn [clock_reads rng_draws attempts trace].
  destruct (validate_claims _ _) as [[]|failure].
  - destruct (decide _); [cbn; by repeat split; try tauto; try lia|].
    destruct (claims !! "sub"); cbn; repeat split; try done; try lia; eauto.
  - destruct failure; cbn; by repeat split; try tauto; try lia.
Qed.

(** X19.  A token that is not genuine (not parseable, naming another
    algorithm, or not carrying the signature of its claims under the
    service's key) is never given a subject and is never told that it has
    expired: whatever its claims say and whatever the time, the answer is the
    [AttributeError] of the missing [jwt.JWTError], and the clock is not
    read. *)
Theorem verify_token_rejects_forgery (self : AuthService)
    (creds : HTTPAuthorizationCredentials) (trace_id : string) (w : world) :
  (∀ claims : gmap string value,
     credentials creds
       ≠ Compact (jwt_algorithm self) claims
           (jws_sign (jwt_algorithm self) (jwt_secret self) claims)) →
  (verify_token self creds trace_id w).1 = Raise no_JWTError
  ∧ clock_reads (verify_token self creds trace_id w).2 = clock_reads w.
Proof.
  intros Hforged. unfold_auth. cbn [clock_reads rng_draws attempts trace].
  destruct (credentials creds) as [raw|alg claims signature]; [done|].
  destruct (decide _) as [Halg|]; [|done].
  destruct (decide _) as [->|]; [|done].
  apply list_elem_of_singleton in Halg as ->. by destruct (Hforged claims).
Qed.

End Properties.

(** ** The theorems at work in the scenario *)

(** The two failing logins of the scenario: unknown email, wrong password. *)
Lemma authenticate_user_uniform_failure_scenario :
  (authenticate_user (env:=scenario) scenario_service "missing@x.com" "pw1" "t-1" world0).1
    = Raise (AuthenticationError invalid_credentials_message "AUTH_001" "t-1")
  ∧ (authenticate_user (env:=scenario) scenario_service "a@x.com" "wrong" "t-1" world0).1
    = (authenticate_user (env:=scenario) scenario_service "missing@x.com" "pw1" "t-1" world0).1.
Proof.
  pose proof (authenticate_user_uniform_failure (env:=scenario) scenario_service
                "missing@x.com" "pw1" "a@x.com" "wrong" "t-1" alice world0 world0
                eq_refl eq_refl eq_refl) as (Hmissing & Hwrong & _).
  split; [exact Hmissing|exact Hwrong].
Defined.

(** Five and six calls in a row from an address last seen long ago. *)
Lemma check_rate_limit_burst_scenario :
  (check_rate_limit_times (env:=scenario) rate_limiter "203.0.113.7" 5 seen_long_ago).1
    = Ok [true; true; true; true; true]
  ∧ (check_rate_limit_times (env:=scenario) rate_limiter "203.0.113.7" 6 seen_long_ago).1
    = Ok [true; true; true; true; true; false].
Proof.
  destruct (check_rate_limit_burst (env:=scenario) rate_limiter "203.0.113.7"
              seen_long_ago) as [Hpass Hdeny].
  { intros a Ha. change (a ∈ [-400000000]) in Ha.
    apply list_elem_of_singleton in Ha as ->. by vm_compute. }
  split.
  - apply (Hpass 5%nat). simpl. lia.
  - apply Hdeny; [simpl; lia|].
    intros i j Hi Hj. vm_compute in Hi, Hj.
    cbn [utcnow_at scenario window rate_limiter]. unfold timedelta_seconds. lia.
Defined.

(** A limiter of two attempts per three seconds, full after two calls: the
    third call is denied in the pruned state. *)
Lemma check_rate_limit_prunes_before_count_scenario :
  let self := {| max_attempts := 2; window := 3 |} in
  let w := (check_rate_limit_each (env:=scenario) self ["ip"; "ip"] world0).2 in
  check_rate_limit (env:=scenario) self "ip" w
    = (Ok false, (check_rate_limit_prune (env:=scenario) self "ip" w).2)
  ∧ recorded (check_rate_limit (env:=scenario) self "ip" w).2 "ip" = [0; 1000000].
Proof.
  intros self w.
  destruct (check_rate_limit_prunes_before_count (env:=scenario) self "ip" w)
    as (w1 & Hprune & _ & _ & _ & Hfull & _).
  apply (f_equal snd) in Hprune. cbn [snd] in Hprune. subst w1.
  destruct Hfull as [Hcall Hsame]; [by vm_compute|].
  split; [exact Hcall|]. rewrite Hsame. by vm_compute.
Defined.

(** The same limiter, denied at the third call and open again at the fourth,
    three seconds after the first. *)
Lemma check_rate_limit_slides_scenario :
  let self := {| max_attempts := 2; window := 3 |} in
  let before := check_rate_limit_each (env:=scenario) self ["ip"; "ip"; "ip"] world0 in
  before.1 = Ok [true; true; false]
  ∧ (check_rate_limit (env:=scenario) self "ip" before.2).1 = Ok true.
Proof.
  split; [by vm_compute|].
  apply (check_rate_limit_slides (env:=scenario) {| max_attempts := 2; window := 3 |}
           ["ip"; "ip"; "ip"] "ip" 0 [1000000]).
  - by vm_compute.
  - by vm_compute.
Defined.

(** An expired refresh token signed with the key: expired, not wrong type. *)
Lemma verify_token_expired_scenario :
  (verify_token (env:=scenario) scenario_service
     (signed_by_scenario expired_refresh_claims) "t-1" (World 20 0 ∅ [])).1
    = Raise (AuthorizationError "Token has expired" "AUTH_003" "t-1").
Proof.
  destruct (verify_token_expired (env:=scenario) scenario_service "Bearer" "t-1"
              expired_refresh_claims 10 (World 20 0 ∅ []))
    as [Hexpired _].
  - left. by vm_compute.
  - left. by vm_compute.
  - by vm_compute.
  - by vm_compute.
  - exact Hexpired.
Defined.

(** A token with the signature of its claims whose expiry has passed and that
    is not yet valid: the answer is not that it has expired. *)
Lemma expired_token_not_answered_expired :
  not_yet_valid_claims !! "exp" = Some (VInt 10)
  ∧ 10 ≤ utcnow_at (Env:=scenario) 20 `div` 1000000
  ∧ (verify_token (env:=scenario) scenario_service
       (signed_by_scenario not_yet_valid_claims) "t-1" (World 20 0 ∅ [])).1
    ≠ Raise (AuthorizationError "Token has expired" "AUTH_003" "t-1")
  ∧ (verify_token (env:=scenario) scenario_service
       (signed_by_scenario not_yet_valid_claims) "t-1" (World 20 0 ∅ [])).1
    = Raise no_JWTError.
Proof. split; [by vm_compute|]. split; [by vm_compute|]. split; by vm_compute. Qed.

(** Tokens issued at the start of the scenario and checked two seconds in. *)
Lemma issued_tokens_verify_scenario :
  ∃ access : token,
    (_create_access_token (env:=scenario) scenario_service "u1" world0).1 = Ok access
    ∧ (verify_token (env:=scenario) scenario_service
         {| scheme := "Bearer"; credentials := access |} "t-1" (World 2 1 ∅ [])).1
        = Ok (VStr "u1").
Proof.
  apply (issued_tokens_verify (env:=scenario) scenario_service "u1" "Bearer" "t-1"
           world0 (World 2 1 ∅ [])).
  - by vm_compute.
  - by vm_compute.
Defined.

(** The access token issued for [u1] in the scenario: however and whenever
    [verify_token] is asked about it, the answer is not wrong type. *)
Lemma access_token_never_wrong_type :
  ∃ access : token,
    (_create_access_token (env:=scenario) scenario_service "u1" world0).1 = Ok access
    ∧ ∀ (sch trace_id : string) (w : world),
        (verify_token (env:=scenario) scenario_service
           {| scheme := sch; credentials := access |} trace_id w).1
          ≠ Raise (AuthorizationError "Invalid token type" "AUTH_002" trace_id).
Proof.
  destruct (_create_access_token (env:=scenario) scenario_service "u1" world0)
    as [[access|e] w1] eqn:Hissue; [|by vm_compute in Hissue].
  exists access. split; [done|]. intros sch trace_id w.
  apply (verify_access_token_not_wrong_type (env:=scenario) scenario_service "u1"
           sch trace_id world0 w).
  by rewrite Hissue.
Qed.

(** A correct login from an address that has used up its five attempts. *)
Lemma login_endpoint_limits_first_scenario :
  let full := (check_rate_limit_times (env:=scenario) rate_limiter "unknown" 5 world0).2 in
  (login_endpoint (env:=scenario) login_as_alice full).1
    = Raise (HTTPException 429 "Rate limit exceeded")
  ∧ trace (login_endpoint (env:=scenario) login_as_alice full).2
    = trace full ++ [CheckRateLimit "unknown"].
Proof.
  intros full.
  destruct (login_endpoint_limits_first (env:=scenario) login_as_alice full)
    as (_ & Hdenied & _).
  destruct Hdenied as [Hcall Htrace]; [by vm_compute|].
  split; [by rewrite Hcall|exact Htrace].
Defined.

(** A signed, live access token without subject. *)
Lemma verify_token_missing_sub_scenario :
  (verify_token (env:=scenario) scenario_service
     (signed_by_scenario subjectless_claims) "t-1" world0).1
    = Raise no_JWTError.
Proof.
  destruct (verify_token_missing_sub (env:=scenario) scenario_service "Bearer" "t-1"
              world0) as [Hall _].
  apply (Hall subjectless_claims).
  split; [exists 10; split; by vm_compute|]. split; by vm_compute.
Defined.

(** ** The further properties at work *)

(** Ten calls in a row after three earlier ones: two more are let through. *)
Lemma check_rate_limit_window_bound_scenario :
  let w := (check_rate_limit_times (env:=scenario) rate_limiter "ip" 3 world0).2 in
  ∃ bs : list bool,
    (check_rate_limit_times (env:=scenario) rate_limiter "ip" 10 w).1 = Ok bs
    ∧ length bs = 10%nat
    ∧ Z.of_nat (granted bs) ≤ Z.max 0 (max_attempts rate_limiter).
Proof.
  intros w.
  apply (check_rate_limit_window_bound (env:=scenario) rate_limiter "ip" 10 w).
  intros i j Hi Hj. vm_compute in Hi, Hj.
  cbn [utcnow_at scenario window rate_limiter]. unfold timedelta_seconds. lia.
Defined.

(** Calls from two other addresses leave the entry of a third as it was. *)
Lemma check_rate_limit_other_keys_scenario :
  attempts (check_rate_limit_each (env:=scenario) rate_limiter
              ["198.51.100.1"; "198.51.100.2"; "198.51.100.1"] seen_long_ago).2
    !! "203.0.113.7"
  = Some [-400000000].
Proof.
  etrans.
  - apply (check_rate_limit_other_keys (env:=scenario) rate_limiter
             ["198.51.100.1"; "198.51.100.2"; "198.51.100.1"] "203.0.113.7"
             seen_long_ago).
    intros Hin. repeat (apply elem_of_cons in Hin as [Hin|Hin]; [done|]).
    by apply elem_of_nil in Hin.
  - by vm_compute.
Defined.

(** An address checked once is still in the table after other calls. *)
Lemma check_rate_limit_never_evicts_scenario :
  "198.51.100.1"
    ∈ dom (attempts (check_rate_limit_each (env:=scenario) rate_limiter
                       ["198.51.100.1"; "198.51.100.2"] world0).2).
Proof.
  apply (check_rate_limit_never_evicts (env:=scenario) rate_limiter
           ["198.51.100.1"; "198.51.100.2"] "198.51.100.1" world0).
  left. by left.
Defined.

(** A limiter of zero attempts. *)
Lemma check_rate_limit_closed_scenario :
  (check_rate_limit_times (env:=scenario) {| max_attempts := 0; window := 300 |}
     "ip" 3 world0).1
    = Ok [false; false; false].
Proof.
  apply (check_rate_limit_closed (env:=scenario) {| max_attempts := 0; window := 300 |}
           "ip" 3 world0).
  simpl. lia.
Defined.

Lemma scenario_clock_monotone : clock_monotone (env:=scenario).
Proof. intros i j Hij. cbn [utcnow_at scenario]. lia. Qed.

(** A limiter of one attempt and a window of zero seconds. *)
Lemma check_rate_limit_open_scenario :
  (check_rate_limit_times (env:=scenario) {| max_attempts := 1; window := 0 |}
     "ip" 4 world0).1
    = Ok [true; true; true; true].
Proof.
  apply (check_rate_limit_open (env:=scenario) {| max_attempts := 1; window := 0 |}
           "ip" 4 world0).
  - simpl. lia.
  - simpl. lia.
  - exact scenario_clock_monotone.
  - intros a Ha. vm_compute in Ha. by apply elem_of_nil in Ha.
Defined.

(** The scenario's clock keeps the table in order. *)
Lemma check_rate_limit_keeps_order_scenario :
  chronological (env:=scenario)
    (check_rate_limit_each (env:=scenario) rate_limiter ["a"; "b"; "a"] world0).2.
Proof.
  apply (check_rate_limit_keeps_order (env:=scenario) rate_limiter ["a"; "b"; "a"]).
  exact scenario_clock_monotone.
Defined.

(** What the two failing logins of the scenario leave in the trace. *)
Lemma authenticate_user_failure_effects_scenario :
  trace (authenticate_user (env:=scenario) scenario_service
           "missing@x.com" "pw1" "t-1" world0).2
    = [GetByEmail "missing@x.com"]
  ∧ length (trace (authenticate_user (env:=scenario) scenario_service
                     "a@x.com" "wrong" "t-1" world0).2) = 4%nat.
Proof.
  destruct (authenticate_user_failure_effects (env:=scenario) scenario_service
              "missing@x.com" "pw1" "a@x.com" "wrong" "t-1" alice world0
              eq_refl eq_refl eq_refl) as [Hmissing Hwrong].
  split; [exact Hmissing|]. by rewrite Hwrong.
Defined.

(** The store is down, or [bcrypt] rejects the hash. *)
Lemma authenticate_user_passes_failures_scenario :
  (authenticate_user (env:=outage) scenario_service "b@x.com" "pw1" "t-1" world0).1
    = Raise (OtherError "connection refused")
  ∧ (authenticate_user (env:=outage) scenario_service "a@x.com" "pw1" "t-1" world0).1
    = Raise (OtherError "Invalid salt").
Proof.
  split.
  - destruct (authenticate_user_passes_failures (env:=outage) scenario_service
                "b@x.com" "pw1" "t-1" "connection refused" world0)
      as [Hstore _].
    by destruct Hstore.
  - destruct (authenticate_user_passes_failures (env:=outage) scenario_service
                "a@x.com" "pw1" "t-1" "Invalid salt" world0)
      as [_ Hbcrypt].
    by destruct (Hbcrypt alice).
Defined.

(** Alice logs in; her access token is accepted two seconds later. *)
Lemma authenticate_user_success_scenario :
  ∃ response : envelope,
    (authenticate_user (env:=scenario) scenario_service "a@x.com" "pw1" "t-1" world0).1
      = Ok response
    ∧ (verify_token (env:=scenario) scenario_service
         {| scheme := "Bearer"; credentials := access_token (data response) |}
         "t-2" (World 7 1 ∅ [])).1
      = Ok (VStr "u1").
Proof.
  destruct (authenticate_user_success (env:=scenario) scenario_service
              "a@x.com" "pw1" "t-1" alice world0 eq_refl eq_refl)
    as (response & Hok & _ & _ & _ & _ & Haccess & _).
  exists response. split; [exact Hok|].
  apply Haccess; by vm_compute.
Defined.

(** An access token a day after it was issued, a refresh token eight days
    after. *)
Lemma issued_tokens_expire_scenario :
  ∃ access refresh : token,
    (_create_access_token (env:=daily) scenario_service "u1" world0).1 = Ok access
    ∧ (_create_refresh_token (env:=daily) scenario_service "u1" world0).1 = Ok refresh
    ∧ (verify_token (env:=daily) scenario_service
         {| scheme := "Bearer"; credentials := access |} "t-1" (World 1 0 ∅ [])).1
      = Raise (AuthorizationError "Token has expired" "AUTH_003" "t-1")
    ∧ (verify_token (env:=daily) scenario_service
         {| scheme := "Bearer"; credentials := refresh |} "t-1" (World 9 0 ∅ [])).1
      = Raise (AuthorizationError "Token has expired" "AUTH_003" "t-1").
Proof.
  destruct (_create_access_token (env:=daily) scenario_service "u1" world0)
    as [[access|e] wa] eqn:Ha; [|by vm_compute in Ha].
  destruct (_create_refresh_token (env:=daily) scenario_service "u1" world0)
    as [[refresh|e] wr] eqn:Hr; [|by vm_compute in Hr].
  exists access, refresh. split; [done|]. split; [done|]. split.
  - destruct (issued_tokens_expire (env:=daily) scenario_service "u1" "Bearer" "t-1"
                world0 (World 1 0 ∅ [])) as [Haccess _]; [by vm_compute|].
    apply Haccess; [by rewrite Ha|by vm_compute].
  - destruct (issued_tokens_expire (env:=daily) scenario_service "u1" "Bearer" "t-1"
                world0 (World 9 0 ∅ [])) as [_ Hrefresh]; [by vm_compute|].
    apply Hrefresh; [by rewrite Hr|by vm_compute].
Defined.

(** Two wrong passwords for Alice. *)
Lemma authenticate_user_password_only_checked_scenario :
  authenticate_user (env:=scenario) scenario_service "a@x.com" "wrong" "t-1" world0
    = authenticate_user (env:=scenario) scenario_service "a@x.com" "guess" "t-1" world0.
Proof.
  apply (authenticate_user_password_only_checked (env:=scenario) scenario_service
           "a@x.com" "wrong" "guess" "t-1" world0).
  intros user Huser. vm_compute in Huser. injection Huser as <-. by vm_compute.
Defined.

(** Alice's successful login from an unnamed address is counted. *)
Lemma login_endpoint_counts_every_call_scenario :
  recorded (login_endpoint (env:=scenario) login_as_alice world0).2 "unknown" = [0].
Proof.
  destruct (login_endpoint_counts_every_call (env:=scenario) login_as_alice world0)
    as [Hcounted _]; [by vm_compute|].
  etrans; [exact Hcounted|]. by vm_compute.
Defined.

(** Alice's login without a trace id. *)
Lemma login_endpoint_without_trace_id_scenario :
  (login_endpoint (env:=scenario)
     {| kw_email := "a@x.com"; kw_password := "pw1";
        kw_trace_id := None; kw_client_ip := Some "203.0.113.7" |} world0).1
    = Raise (NameError "uuid").
Proof.
  destruct (login_endpoint_without_trace_id (env:=scenario)
              {| kw_email := "a@x.com"; kw_password := "pw1";
                 kw_trace_id := None; kw_client_ip := Some "203.0.113.7" |} world0)
    as (allowed & Hallowed & Hanswer & _); [by left|].
  vm_compute in Hallowed. injection Hallowed as <-. exact Hanswer.
Defined.

(** A signed access token without expiry is accepted. *)
Lemma verify_token_sound_scenario :
  (verify_token (env:=scenario) scenario_service
     (signed_by_scenario alice_access_claims) "t-1" world0).1 = Ok (VStr "u1")
  ∧ ∃ claims : gmap string value,
      credentials (signed_by_scenario alice_access_claims)
        = Compact "HS256" claims (jws_sign (Env:=scenario) "HS256" "k" claims)
      ∧ claims !! "sub" = Some (VStr "u1").
Proof.
  assert ((verify_token (env:=scenario) scenario_service
             (signed_by_scenario alice_access_claims) "t-1" world0).1
          = Ok (VStr "u1")) as Hok by by vm_compute.
  split; [exact Hok|].
  destruct (verify_token_sound (env:=scenario) scenario_service
              (signed_by_scenario alice_access_claims) "t-1" world0 (VStr "u1") Hok)
    as (claims & Hcreds & _ & Hsub & _).
  exists claims. split; [exact Hcreds|exact Hsub].
Defined.

(** A string that is no token. *)
Lemma verify_token_rejects_forgery_scenario :
  (verify_token (env:=scenario) scenario_service
     {| scheme := "Bearer"; credentials := Unparseable "not-a-token" |}
     "t-1" world0).1
    = Raise no_JWTError.
Proof.
  destruct (verify_token_rejects_forgery (env:=scenario) scenario_service
              {| scheme := "Bearer"; credentials := Unparseable "not-a-token" |}
              "t-1" world0) as [Hanswer _]; [done|].
  exact Hanswer.
Defined.

(** The module's limiter after five calls in a row: three more are denied and
    leave the five timestamps in place. *)
Lemma check_rate_limit_lockout_scenario :
  let w := (check_rate_limit_times (env:=scenario) rate_limiter "ip" 5 world0).2 in
  (check_rate_limit_times (env:=scenario) rate_limiter "ip" 3 w).1
    = Ok [false; false; false]
  ∧ recorded (check_rate_limit_times (env:=scenario) rate_limiter "ip" 3 w).2 "ip"
    = [0; 1000000; 2000000; 3000000; 4000000].
Proof.
  intros w.
  destruct (check_rate_limit_lockout (env:=scenario) rate_limiter "ip" 3 w)
    as [Hdenied Hsame].
  - by vm_compute.
  - intros a Ha. vm_compute in Ha. unfold outlasts. apply Forall_forall.
    intros j Hj. apply elem_of_seq in Hj. vm_compute in Hj.
    cbn [utcnow_at scenario window rate_limiter]. unfold timedelta_seconds.
    repeat (apply elem_of_cons in Ha as [->|Ha]; [lia|]).
    by apply elem_of_nil in Ha.
  - split; [exact Hdenied|]. etrans; [exact Hsame|]. by vm_compute.
Defined.

(** Why the expiry of issued tokens is stated for tokens that are not
    presented before the clock reading of their [iat]: with a clock set back
    between issuance and validation, an
    access token that is four hours old, three hours past its lifetime, is
    not answered with [AUTH_003], because the library refuses its [iat]
    first. *)
Lemma issued_token_from_the_future :
  ∃ access : token,
    (_create_access_token (env:=set_back) scenario_service "u1" world0).1 = Ok access
    ∧ utcnow_at (Env:=set_back) 0
        + timedelta_minutes (access_token_expire_minutes scenario_service)
        + timedelta_seconds 1 ≤ utcnow_at (Env:=set_back) 2
    ∧ (verify_token (env:=set_back) scenario_service
         {| scheme := "Bearer"; credentials := access |} "t-1" (World 2 0 ∅ [])).1
      = Raise no_JWTError.
Proof.
  destruct (_create_access_token (env:=set_back) scenario_service "u1" world0)
    as [[access|e] wa] eqn:Ha; [|by vm_compute in Ha].
  exists access. split; [done|]. split; [by vm_compute|].
  rewrite (verify_access_token (env:=set_back) scenario_service "u1" "Bearer" "t-1"
             world0 (World 2 0 ∅ []) access) by (by rewrite Ha).
  by vm_compute.
Qed.
